(** * commit-msg: the usage-statistics ledger ([package usage], [pkg/types])

    A shallow embedding of [StatsManager] and of the types it aggregates.

    - Go's [int] is the 64-bit two's-complement integer: a counter is a [Z]
      and every arithmetic operation is followed by [wrap64].
    - Go's [float64] is the kernel's binary64 [float]; [float64(i)] rounds an
      integer to the nearest float, ties to even, and every operation rounds
      on its own (no fused multiply-add).
    - [map[LLMProvider]*ProviderStats] is a [gmap] from provider names to
      records.  Every entry the package stores is a freshly allocated,
      non-nil record owned by a single key, so no aliasing is modelled; a
      [nil] entry or a [nil] map, which only a stats file holding [null]
      could produce, is outside the model.
    - The clock, the file system and [encoding/json] are inputs of the
      operations that use them. *)

From Stdlib Require Import ZArith Lia Uint63 Floats.
From stdpp Require Import gmap strings list fin_maps.

Local Open Scope Z_scope.

(** ** Machine integers *)

Definition wrap64 (z : Z) : Z := (z + 2 ^ 63) mod 2 ^ 64 - 2 ^ 63.

Definition int_ok (z : Z) : Prop := - 2 ^ 63 <= z < 2 ^ 63.

Definition int_add (a b : Z) : Z := wrap64 (a + b).
Definition int_sub (a b : Z) : Z := wrap64 (a - b).
(** [x++] *)
Definition int_incr (a : Z) : Z := int_add a 1.

(** ** Floating point *)

(** [float64(i)] for an [int] [i]: the nearest binary64 value. *)
Definition float64_of_int (z : Z) : float :=
  SF2Prim (binary_normalize prec emax z 0 false).

(** ** [pkg/types] *)

Definition LLMProvider : Type := string.

Record ProviderStats : Type := mkProviderStats {
  Name : LLMProvider;
  TotalUses : Z;
  SuccessfulUses : Z;
  FailedUses : Z;
  PTotalCost : float;
  PTotalTokensUsed : Z;
  PAverageGenerationTime : float;
  FirstUsed : string;
  LastUsed : string;
  SuccessRate : float
}.

(** The field [ProviderStats] of the source is [ProviderStatsMap] here, the
    name being taken by the record type. *)
Record UsageStats : Type := mkUsageStats {
  TotalGenerations : Z;
  SuccessfulGenerations : Z;
  FailedGenerations : Z;
  ProviderStatsMap : gmap LLMProvider ProviderStats;
  FirstUse : string;
  LastUse : string;
  TotalCost : float;
  TotalTokensUsed : Z;
  CacheHits : Z;
  CacheMisses : Z;
  AverageGenerationTime : float
}.

(** Modelled from the spec: the field [CacheChecked] ("whether the cache was
    checked"), which [RecordGeneration] reads and the declaration of
    [GenerationEvent] in [pkg/types/types.go] does not list. *)
Record GenerationEvent : Type := mkGenerationEvent {
  Provider : LLMProvider;
  Success : bool;
  GenerationTime : float;
  TokensUsed : Z;
  Cost : float;
  CacheChecked : bool;
  CacheHit : bool;
  Timestamp : string;
  ErrorMessage : string
}.

(** ** Errors *)

Inductive error : Type :=
| ErrNotExist (path : string)           (* *fs.PathError wrapping ENOENT *)
| ErrOS (msg : string)                  (* any other error of package os *)
| ErrJSON (msg : string)                (* an error of encoding/json *)
| Errorf (prefix : string) (cause : error). (* fmt.Errorf(prefix + ": %w", cause) *)

(** [os.IsNotExist]: it looks through the os error wrappers only, not
    through [%w]. *)
Definition IsNotExist (e : error) : bool :=
  match e with
  | ErrNotExist _ => true
  | _ => false
  end.

(** ** [StatsManager] *)

Record StatsManager : Type := mkStatsManager {
  stats : UsageStats;
  filePath : string
}.

(** [&types.UsageStats{ProviderStats: make(map...)}] *)
Definition zero_stats : UsageStats :=
  {| TotalGenerations := 0; SuccessfulGenerations := 0; FailedGenerations := 0;
     ProviderStatsMap := ∅; FirstUse := ""; LastUse := "";
     TotalCost := 0%float; TotalTokensUsed := 0;
     CacheHits := 0; CacheMisses := 0; AverageGenerationTime := 0%float |}.

(** [&types.ProviderStats{Name: event.Provider, FirstUsed: now}] *)
Definition new_provider_stats (p : LLMProvider) (now : string) : ProviderStats :=
  {| Name := p; TotalUses := 0; SuccessfulUses := 0; FailedUses := 0;
     PTotalCost := 0%float; PTotalTokensUsed := 0;
     PAverageGenerationTime := 0%float;
     FirstUsed := now; LastUsed := ""; SuccessRate := 0%float |}.

(** ** The outside world

    What one call observes of the clock, the file system, [path/filepath],
    [encoding/json] and [StoreUtils].  An absent error is [None]; a result or
    an error is a sum with the error on the left.  [encoding/json] reports its
    own errors, given here by their message. *)

Record Env : Type := mkEnv {
  time_Now : string;                       (* time.Now().UTC().Format(time.RFC3339) *)
  filepath_Dir : string → string;
  filepath_Join : string → string → string;
  json_MarshalIndent : UsageStats → string + list Byte.byte;
  (* the target is written in place, also when decoding stops on an error *)
  json_Unmarshal : list Byte.byte → UsageStats → UsageStats * option string;
  os_MkdirAll : string → option error;
  os_WriteFile : string → list Byte.byte → option error;
  os_ReadFile : string → error + list Byte.byte;
  StoreUtils_GetConfigPath : error + string
}.

(** ** [RecordGeneration] *)

(** The statements of [RecordGeneration] on [providerStats]. *)
Definition record_provider (now : string) (event : GenerationEvent)
    (providerStats : ProviderStats) : ProviderStats :=
  let totalUses := int_incr (TotalUses providerStats) in
  let successfulUses :=
    if Success event then int_incr (SuccessfulUses providerStats)
    else SuccessfulUses providerStats in
  let failedUses :=
    if Success event then FailedUses providerStats
    else int_incr (FailedUses providerStats) in
  let totalProviderTime :=
    (PAverageGenerationTime providerStats
       * float64_of_int (int_sub totalUses 1))%float in
  {| Name := Name providerStats;
     TotalUses := totalUses;
     SuccessfulUses := successfulUses;
     FailedUses := failedUses;
     PTotalCost := (PTotalCost providerStats + Cost event)%float;
     PTotalTokensUsed := int_add (PTotalTokensUsed providerStats) (TokensUsed event);
     PAverageGenerationTime :=
       ((totalProviderTime + GenerationTime event) / float64_of_int totalUses)%float;
     FirstUsed := FirstUsed providerStats;
     LastUsed := now;
     SuccessRate :=
       if 0 <? totalUses
       then (float64_of_int successfulUses / float64_of_int totalUses * 100)%float
       else SuccessRate providerStats |}.

(** [sm.stats.ProviderStats[event.Provider]], created when it is [nil]. *)
Definition provider_entry (now : string) (event : GenerationEvent)
    (s : UsageStats) : ProviderStats :=
  match ProviderStatsMap s !! Provider event with
  | Some providerStats => providerStats
  | None => new_provider_stats (Provider event) now
  end.

(** The in-memory part of [RecordGeneration]: everything before
    [return sm.save()]. *)
Definition record_event (now : string) (event : GenerationEvent)
    (s : UsageStats) : UsageStats :=
  let totalGenerations := int_incr (TotalGenerations s) in
  let totalTime :=
    (AverageGenerationTime s * float64_of_int (int_sub totalGenerations 1))%float in
  {| TotalGenerations := totalGenerations;
     SuccessfulGenerations :=
       if Success event then int_incr (SuccessfulGenerations s)
       else SuccessfulGenerations s;
     FailedGenerations :=
       if Success event then FailedGenerations s
       else int_incr (FailedGenerations s);
     ProviderStatsMap :=
       <[Provider event := record_provider now event (provider_entry now event s)]>
         (ProviderStatsMap s);
     FirstUse := if decide (FirstUse s = "") then now else FirstUse s;
     LastUse := now;
     TotalCost := (TotalCost s + Cost event)%float;
     TotalTokensUsed := int_add (TotalTokensUsed s) (TokensUsed event);
     CacheHits :=
       if CacheChecked event
       then (if CacheHit event then int_incr (CacheHits s) else CacheHits s)
       else CacheHits s;
     CacheMisses :=
       if CacheChecked event
       then (if CacheHit event then CacheMisses s else int_incr (CacheMisses s))
       else CacheMisses s;
     AverageGenerationTime :=
       ((totalTime + GenerationTime event) / float64_of_int totalGenerations)%float |}.

(** [save]: the first failing step decides the error. *)
Definition save (w : Env) (sm : StatsManager) : option error :=
  match os_MkdirAll w (filepath_Dir w (filePath sm)) with
  | Some err => Some (Errorf "failed to create stats directory" err)
  | None =>
      match json_MarshalIndent w (stats sm) with
      | inl msg => Some (Errorf "failed to marshal stats" (ErrJSON msg))
      | inr data => os_WriteFile w (filePath sm) data
      end
  end.

(** The manager after the call, and the error the call returns. *)
Definition RecordGeneration (w : Env) (event : GenerationEvent)
    (sm : StatsManager) : StatsManager * option error :=
  let sm' := {| stats := record_event (time_Now w) event (stats sm);
                filePath := filePath sm |} in
  (sm', save w sm').

(** ** Loading *)

Definition load (w : Env) (sm : StatsManager) : StatsManager * option error :=
  match os_ReadFile w (filePath sm) with
  | inl err => (sm, Some err)
  | inr data =>
      if (length data =? 0)%nat then (sm, None)
      else
        let '(s, r) := json_Unmarshal w data (stats sm) in
        ({| stats := s; filePath := filePath sm |}, ErrJSON <$> r)
  end.

Definition NewStatsManager (w : Env) : error + StatsManager :=
  match StoreUtils_GetConfigPath w with
  | inl err => inl (Errorf "failed to get config path" err)
  | inr configPath =>
      let configDir := filepath_Dir w configPath in
      let statsPath := filepath_Join w configDir "usage_stats.json" in
      let manager := {| stats := zero_stats; filePath := statsPath |} in
      match load w manager with
      | (manager', Some err) =>
          if negb (IsNotExist err)
          then inl (Errorf "failed to load existing stats" err)
          else inr manager'
      | (manager', None) => inr manager'
      end
  end.

(** ** Reads *)

(** [GetStats]: a field-by-field copy, entry by entry for the map. *)
Definition GetStats (sm : StatsManager) : UsageStats :=
  let s := stats sm in
  {| TotalGenerations := TotalGenerations s;
     SuccessfulGenerations := SuccessfulGenerations s;
     FailedGenerations := FailedGenerations s;
     ProviderStatsMap :=
       (fun ps =>
          {| Name := Name ps; TotalUses := TotalUses ps;
             SuccessfulUses := SuccessfulUses ps; FailedUses := FailedUses ps;
             PTotalCost := PTotalCost ps; PTotalTokensUsed := PTotalTokensUsed ps;
             PAverageGenerationTime := PAverageGenerationTime ps;
             FirstUsed := FirstUsed ps; LastUsed := LastUsed ps;
             SuccessRate := SuccessRate ps |}) <$> ProviderStatsMap s;
     FirstUse := FirstUse s;
     LastUse := LastUse s;
     TotalCost := TotalCost s;
     TotalTokensUsed := TotalTokensUsed s;
     CacheHits := CacheHits s;
     CacheMisses := CacheMisses s;
     AverageGenerationTime := AverageGenerationTime s |}.

Definition GetSuccessRate (sm : StatsManager) : float :=
  if TotalGenerations (stats sm) =? 0 then 0%float
  else (float64_of_int (SuccessfulGenerations (stats sm))
          / float64_of_int (TotalGenerations (stats sm)) * 100)%float.

Definition GetCacheHitRate (sm : StatsManager) : float :=
  let totalCacheAttempts := int_add (CacheHits (stats sm)) (CacheMisses (stats sm)) in
  if totalCacheAttempts =? 0 then 0%float
  else (float64_of_int (CacheHits (stats sm))
          / float64_of_int totalCacheAttempts * 100)%float.

(** [ResetStats] *)
Definition ResetStats (w : Env) (sm : StatsManager) : StatsManager * option error :=
  let sm' := {| stats := zero_stats; filePath := filePath sm |} in
  (sm', save w sm').

(** ** [GetProviderRanking] *)

Record providerUsage : Type := mkProviderUsage {
  provider : LLMProvider;
  uses : Z
}.

(** [if rankings[j].uses > rankings[i].uses { swap }]; both indices are in
    range whenever the loops reach this statement. *)
Definition exchange_if_greater (i j : nat) (rankings : list providerUsage) :
    list providerUsage :=
  match rankings !! i, rankings !! j with
  | Some ri, Some rj =>
      if uses ri <? uses rj then <[j := ri]> (<[i := rj]> rankings) else rankings
  | _, _ => rankings
  end.

(** [for j := ...; j < len(rankings); j++], with [n] iterations left. *)
Fixpoint inner_loop (n : nat) (i j : nat) (rankings : list providerUsage) :
    list providerUsage :=
  match n with
  | O => rankings
  | S n' => inner_loop n' i (S j) (exchange_if_greater i j rankings)
  end.

(** [for i := ...; i < len(rankings)-1; i++], with [n] iterations left. *)
Fixpoint outer_loop (n : nat) (i : nat) (rankings : list providerUsage) :
    list providerUsage :=
  match n with
  | O => rankings
  | S n' =>
      outer_loop n' (S i)
        (inner_loop (length rankings - S i) i (S i) rankings)
  end.

Definition sort_rankings (rankings : list providerUsage) : list providerUsage :=
  outer_loop (length rankings - 1) 0 rankings.

Section Ranking.
(** The order in which [range] visits a map is not specified: any
    enumeration of the entries, each visited once. *)
Variable range :
  gmap LLMProvider ProviderStats → list (LLMProvider * ProviderStats).

Definition collect_rankings (sm : StatsManager) : list providerUsage :=
  (fun e => {| provider := e.1; uses := TotalUses e.2 |})
    <$> range (ProviderStatsMap (stats sm)).

Definition GetProviderRanking (sm : StatsManager) : list LLMProvider :=
  provider <$> sort_rankings (collect_rankings sm).
End Ranking.

(** ** Runs *)

(** The manager [NewStatsManager] builds when there is nothing to load. *)
Definition fresh_manager (path : string) : StatsManager :=
  {| stats := zero_stats; filePath := path |}.

(** A sequence of calls of [RecordGeneration], each in its own world. *)
Definition record_all (calls : list (Env * GenerationEvent))
    (sm : StatsManager) : StatsManager :=
  foldl (fun m c => (RecordGeneration c.1 c.2 m).1) sm calls.

(** The number of events that report success. *)
Definition successes (calls : list (Env * GenerationEvent)) : nat :=
  length (filter (fun c => Success c.2 = true) calls).

(** ** Invariants and reference formulas *)

(** [successful + failed == total], globally and for every provider entry;
    the sums are Go's. *)
Definition counts_consistent (s : UsageStats) : Prop :=
  int_add (SuccessfulGenerations s) (FailedGenerations s) = TotalGenerations s
  ∧ ∀ p ps, ProviderStatsMap s !! p = Some ps →
      int_add (SuccessfulUses ps) (FailedUses ps) = TotalUses ps.

(** The running mean as the specification words it:
    [(oldAvg * (n-1) + sample) / n]. *)
Definition running_mean_step (oldAvg : float) (n : Z) (sample : float) : float :=
  ((oldAvg * float64_of_int (int_sub n 1) + sample) / float64_of_int n)%float.

(** A percentage as the specification words it: [part / whole * 100], and
    [0] when [whole] is [0]. *)
Definition percentage (part whole : Z) : float :=
  if whole =? 0 then 0%float
  else (float64_of_int part / float64_of_int whole * 100)%float.

(** Every entry before position [i] has at least the use count of every
    entry after it. *)
Definition ranked_upto (i : nat) (r : list providerUsage) : Prop :=
  ∀ p q a b, (p < i)%nat → (p < q)%nat →
    r !! p = Some a → r !! q = Some b → uses b <= uses a.

(** The state of the inner loop for [i] when it reaches [j]. *)
Definition inner_inv (i j : nat) (r : list providerUsage) : Prop :=
  ranked_upto i r
  ∧ ∀ q a b, (i < q < j)%nat → r !! i = Some a → r !! q = Some b →
      uses b <= uses a.

(** Shapes of a binary64 value in its specification form. *)
Definition sf_is_finite (x : spec_float) : bool :=
  match x with
  | S754_finite _ _ _ => true
  | _ => false
  end.

Definition sf_is_zero_or_finite (x : spec_float) : bool :=
  match x with
  | S754_finite _ _ _ | S754_zero _ => true
  | _ => false
  end.

(** ** Sample worlds and events *)

Definition sample_env (now : string) (write : option error) : Env :=
  {| time_Now := now;
     filepath_Dir := fun _ => "/home/u/.config/commit-msg";
     filepath_Join := fun d f => d +:+ "/" +:+ f;
     json_MarshalIndent := fun _ => inr [];
     json_Unmarshal := fun _ s => (s, Some "invalid character");
     os_MkdirAll := fun _ => None;
     os_WriteFile := fun _ _ => write;
     os_ReadFile := fun p => inl (ErrNotExist p);
     StoreUtils_GetConfigPath := inr "/home/u/.config/commit-msg/config.json" |}.

Definition sample_event (p : LLMProvider) (ok : bool) (ms : float)
    (checked hit : bool) : GenerationEvent :=
  {| Provider := p; Success := ok; GenerationTime := ms; TokensUsed := 12;
     Cost := 0%float; CacheChecked := checked; CacheHit := hit;
     Timestamp := ""; ErrorMessage := "" |}.

Definition sample_calls : list (Env * GenerationEvent) :=
  [ (sample_env "2025-01-01T10:00:00Z" None,
     sample_event "Gemini" true 100 true false);
    (sample_env "2025-01-01T10:05:00Z" (Some (ErrOS "no space left on device")),
     sample_event "Grok" false 200 true true);
    (sample_env "2025-01-01T10:09:00Z" None,
     sample_event "Gemini" true 300 false false) ].

(** A stats file that exists and does not parse. *)
Definition corrupt_env : Env :=
  {| time_Now := "2025-01-01T10:00:00Z";
     filepath_Dir := fun _ => "/home/u/.config/commit-msg";
     filepath_Join := fun d f => d +:+ "/" +:+ f;
     json_MarshalIndent := fun _ => inr [];
     json_Unmarshal := fun _ s => (s, Some "unexpected end of JSON input");
     os_MkdirAll := fun _ => None;
     os_WriteFile := fun _ _ => None;
     os_ReadFile := fun _ => inr [Byte.x7b];
     StoreUtils_GetConfigPath := inr "/home/u/.config/commit-msg/config.json" |}.

(** The average a provider's entry holds, if the provider has one. *)
Definition provider_average (p : LLMProvider) (sm : StatsManager) : option float :=
  PAverageGenerationTime <$> (ProviderStatsMap (stats sm) !! p).

(** Three cache hits and one miss. *)
Definition cache_calls : list (Env * GenerationEvent) :=
  [ (sample_env "2025-01-01T10:00:00Z" None,
     sample_event "Gemini" true 100 true false);
    (sample_env "2025-01-01T10:01:00Z" None,
     sample_event "Gemini" true 0 true true);
    (sample_env "2025-01-01T10:02:00Z" None,
     sample_event "Gemini" true 0 true true);
    (sample_env "2025-01-01T10:03:00Z" None,
     sample_event "Gemini" true 0 true true) ].

(** ** [GetMostUsedProvider] *)

Section MostUsed.
(** The order in which [range] visits the map, as for [GetProviderRanking]. *)
Variable range :
  gmap LLMProvider ProviderStats → list (LLMProvider * ProviderStats).

(** The body of the loop, on the pair [(mostUsed, maxUses)]. *)
Definition most_used_step (acc : LLMProvider * Z)
    (e : LLMProvider * ProviderStats) : LLMProvider * Z :=
  if acc.2 <? TotalUses e.2 then (e.1, TotalUses e.2) else acc.

Definition GetMostUsedProvider (sm : StatsManager) : LLMProvider * Z :=
  foldl most_used_step ("", 0) (range (ProviderStatsMap (stats sm))).
End MostUsed.

(** ** [pkg/types]: providers *)

Module LLMProviders.

Definition ProviderOpenAI : LLMProvider := "OpenAI".
Definition ProviderClaude : LLMProvider := "Claude".
Definition ProviderGemini : LLMProvider := "Gemini".
Definition ProviderGrok : LLMProvider := "Grok".
Definition ProviderGroq : LLMProvider := "Groq".
Definition ProviderOllama : LLMProvider := "Ollama".

Definition String (p : LLMProvider) : string := p.

(** The [switch] of [IsValid]: the cases are tried in order. *)
Definition IsValid (p : LLMProvider) : bool :=
  if decide (p = ProviderOpenAI) then true
  else if decide (p = ProviderClaude) then true
  else if decide (p = ProviderGemini) then true
  else if decide (p = ProviderGrok) then true
  else if decide (p = ProviderGroq) then true
  else if decide (p = ProviderOllama) then true
  else false.

Definition GetSupportedProviders : list LLMProvider :=
  [ProviderOpenAI; ProviderClaude; ProviderGemini; ProviderGrok;
   ProviderGroq; ProviderOllama].

Definition GetSupportedProviderStrings : list string :=
  String <$> GetSupportedProviders.

Definition ParseLLMProvider (s : string) : LLMProvider * bool :=
  let provider : LLMProvider := s in
  (provider, IsValid provider).

End LLMProviders.

(** ** [pkg/types]: the Grok wire types, and [grok.GenerateCommitMessage] *)

Module Grok.

Record Message : Type := mkMessage {
  Role : string;
  Content : string
}.

(** The field [Message] of [Choice] is [ChoiceMessage] here, and the field
    [Message] of [GrokResponse] is [ResponseMessage]. *)
Record Choice : Type := mkChoice {
  ChoiceMessage : Message;
  Index : Z;
  FinishReason : string
}.

Record UsageInfo : Type := mkUsageInfo {
  PromptTokens : Z;
  CompletionTokens : Z;
  TotalTokens : Z
}.

Record GrokResponse : Type := mkGrokResponse {
  ResponseMessage : Message;
  Choices : list Choice;
  Id : string;
  Object : string;
  Created : Z;
  Model : string;
  Usage : UsageInfo
}.

(** What the call observes of [encoding/json] and [net/http]: whether the
    request can be encoded and built, what [client.Do] returns (an error, or
    the status code and the body), and what the body decodes to. *)
Record Net : Type := mkNet {
  json_Marshal_request : option error;
  http_NewRequest : option error;
  client_Do : error + (Z * list Byte.byte);
  decode_body : list Byte.byte → error + GrokResponse;
  body_text : list Byte.byte → string       (* string(bodyBytes) *)
}.

(** [fmt.Errorf("API request failed with status %d: %s", ...)] *)
Inductive failure : Type :=
| Failed (err : error)
| BadStatus (status : Z) (body : string).

(** The last statements of [GenerateCommitMessage]: the message of the
    response, or that of the first choice when the former is empty and there
    is a choice. *)
Definition response_content (r : GrokResponse) : string :=
  if decide (Content (ResponseMessage r) = "")
  then
    match Choices r with
    | c :: _ => Content (ChoiceMessage c)
    | [] => Content (ResponseMessage r)
    end
  else Content (ResponseMessage r).

(** [GenerateCommitMessage], after the prompt is built: the message and the
    error it returns. *)
Definition GenerateCommitMessage (n : Net) : string * option failure :=
  match json_Marshal_request n with
  | Some err => ("", Some (Failed err))
  | None =>
      match http_NewRequest n with
      | Some err => ("", Some (Failed err))
      | None =>
          match client_Do n with
          | inl err => ("", Some (Failed err))
          | inr (status, body) =>
              if negb (status =? 200)
              then ("", Some (BadStatus status (body_text n body)))
              else
                match decode_body n body with
                | inl err => ("", Some (Failed err))
                | inr grokResponse => (response_content grokResponse, None)
                end
          end
      end
  end.

End Grok.

(** ** Counting the events of a run *)

(** The events of a run that name provider [p]. *)
Definition events_of (p : LLMProvider)
    (calls : list (Env * GenerationEvent)) : list GenerationEvent :=
  filter (fun e => Provider e = p) calls.*2.

Definition count_if (f : GenerationEvent → bool)
    (events : list GenerationEvent) : Z :=
  Z.of_nat (length (filter (fun e => f e = true) events)).

(** The sum of a counter over the entries of the provider map. *)
Definition provider_sum (f : ProviderStats → Z)
    (m : gmap LLMProvider ProviderStats) : Z :=
  foldr Z.add 0 ((fun e => f e.2) <$> map_to_list m).

(** The sum of the tokens of a list of events. *)
Definition tokens_of (events : list GenerationEvent) : Z :=
  foldr Z.add 0 (TokensUsed <$> events).

(** What the entry of a provider holds after a run in which [events] are the
    events that name it. *)
Definition entry_matches (p : LLMProvider) (events : list GenerationEvent)
    (ps : ProviderStats) : Prop :=
  Name ps = p
  ∧ TotalUses ps = wrap64 (Z.of_nat (length events))
  ∧ SuccessfulUses ps = wrap64 (count_if Success events)
  ∧ FailedUses ps = wrap64 (count_if (fun e => negb (Success e)) events)
  ∧ PTotalTokensUsed ps = wrap64 (tokens_of events).

(** The success rate an entry holds is the percentage of its counts, and a
    number. *)
Definition success_rate_ok (ps : ProviderStats) : Prop :=
  int_ok (TotalUses ps) ∧ int_ok (SuccessfulUses ps)
  ∧ is_nan (SuccessRate ps) = false
  ∧ (0 < TotalUses ps →
     SuccessRate ps = percentage (SuccessfulUses ps) (TotalUses ps)).

(** A slice ranked from its first to its last position. *)
Definition ranked (r : list providerUsage) : Prop :=
  ∀ p q a b, (p < q)%nat → r !! p = Some a → r !! q = Some b → uses b <= uses a.

(** A second order of visit of the sample ledger. *)
Definition reverse_range (m : gmap LLMProvider ProviderStats) :
    list (LLMProvider * ProviderStats) :=
  reverse (map_to_list m).

(** A Grok answer that carries its text in the first choice. *)
Definition sample_grok_response : Grok.GrokResponse :=
  {| Grok.ResponseMessage := {| Grok.Role := ""; Grok.Content := "" |};
     Grok.Choices :=
       [ {| Grok.ChoiceMessage :=
              {| Grok.Role := "assistant"; Grok.Content := "fix: handle nil map" |};
            Grok.Index := 0; Grok.FinishReason := "stop" |} ];
     Grok.Id := "1"; Grok.Object := "chat.completion"; Grok.Created := 0;
     Grok.Model := "grok-2-latest";
     Grok.Usage := {| Grok.PromptTokens := 1; Grok.CompletionTokens := 1;
                      Grok.TotalTokens := 2 |} |}.

Definition sample_net (status : Z) : Grok.Net :=
  {| Grok.json_Marshal_request := None;
     Grok.http_NewRequest := None;
     Grok.client_Do := inr (status, []);
     Grok.decode_body := fun _ => inr sample_grok_response;
     Grok.body_text := fun _ => "" |}.

(** A world in which the stats file cannot be read. *)
Definition denied_env : Env :=
  {| time_Now := "2025-01-01T10:00:00Z";
     filepath_Dir := fun _ => "/home/u/.config/commit-msg";
     filepath_Join := fun d f => d +:+ "/" +:+ f;
     json_MarshalIndent := fun _ => inr [];
     json_Unmarshal := fun _ s => (s, None);
     os_MkdirAll := fun _ => None;
     os_WriteFile := fun _ _ => None;
     os_ReadFile := fun _ => inl (ErrOS "permission denied");
     StoreUtils_GetConfigPath := inr "/home/u/.config/commit-msg/config.json" |}.

(** Each global counter is the sum, in Go's arithmetic, of that counter over
    the providers. *)
Definition totals_are_sums (s : UsageStats) : Prop :=
  let m := ProviderStatsMap s in
  TotalGenerations s = wrap64 (provider_sum TotalUses m)
  ∧ SuccessfulGenerations s = wrap64 (provider_sum SuccessfulUses m)
  ∧ FailedGenerations s = wrap64 (provider_sum FailedUses m)
  ∧ TotalTokensUsed s = wrap64 (provider_sum PTotalTokensUsed m).

(** The ledger the sample run leaves, and its entry for Gemini. *)
Definition sample_manager : StatsManager :=
  record_all sample_calls (fresh_manager "usage_stats.json").

Definition sample_gemini_entry : ProviderStats :=
  Eval vm_compute in
    default (new_provider_stats "Gemini" "")
      (ProviderStatsMap (stats sample_manager) !! "Gemini").

(** * Properties *)

(** ** Wrap-around arithmetic *)

Ltac unfold_int :=
  unfold int_incr, int_add, int_sub, wrap64, int_ok in *;
  change (2 ^ 63) with 9223372036854775808 in *;
  change (2 ^ 64) with 18446744073709551616 in *.

Lemma wrap64_id z : int_ok z → wrap64 z = z.
Proof. intros H. unfold_int. rewrite Z.mod_small; lia. Qed.

Lemma wrap64_ok z : int_ok (wrap64 z).
Proof.
  unfold_int.
  pose proof (Z.mod_pos_bound (z + 9223372036854775808) 18446744073709551616).
  lia.
Qed.

Lemma wrap64_add_l a b : wrap64 (wrap64 a + b) = wrap64 (a + b).
Proof.
  unfold_int. f_equal.
  replace ((a + 9223372036854775808) `mod` 18446744073709551616
           - 9223372036854775808 + b + 9223372036854775808)
    with ((a + 9223372036854775808) `mod` 18446744073709551616 + b) by lia.
  rewrite Z.add_mod_idemp_l by lia. f_equal. lia.
Qed.

Lemma wrap64_add_r a b : wrap64 (a + wrap64 b) = wrap64 (a + b).
Proof. rewrite (Z.add_comm a), wrap64_add_l. f_equal. lia. Qed.

Lemma int_incr_add_l a b : int_add (int_incr a) b = int_incr (int_add a b).
Proof.
  unfold int_incr, int_add. rewrite !wrap64_add_l. f_equal. lia.
Qed.

Lemma int_incr_add_r a b : int_add a (int_incr b) = int_incr (int_add a b).
Proof.
  unfold int_incr, int_add. rewrite wrap64_add_l, wrap64_add_r. f_equal. lia.
Qed.

Lemma int_incr_neq a : int_incr a ≠ a.
Proof.
  unfold_int. intros H.
  pose proof (Z.mod_pos_bound (a + 1 + 9223372036854775808) 18446744073709551616).
  assert (Hm : (a + 1 + 9223372036854775808) `mod` 18446744073709551616
               = a + 9223372036854775808) by lia.
  destruct (Z.eq_dec (a + 9223372036854775808) 18446744073709551615) as [E|E].
  - replace (a + 1 + 9223372036854775808) with (1 * 18446744073709551616) in Hm by lia.
    rewrite Z.mod_mul in Hm by lia. lia.
  - rewrite Z.mod_small in Hm by lia. lia.
Qed.

(** ** Runs from the fresh ledger *)

Lemma record_all_snoc calls c sm :
  record_all (calls ++ [c]) sm = (RecordGeneration c.1 c.2 (record_all calls sm)).1.
Proof. unfold record_all. by rewrite foldl_app. Qed.

Lemma successes_snoc calls c :
  successes (calls ++ [c])
  = (successes calls + (if Success c.2 then 1 else 0))%nat.
Proof.
  unfold successes. rewrite filter_app, length_app. f_equal.
  rewrite filter_cons, filter_nil. destruct (Success c.2); by case_decide.
Qed.

Lemma successes_le calls : (successes calls ≤ length calls)%nat.
Proof. unfold successes. apply length_filter. Qed.

(** The three counters after a run, before the bound on its length is used. *)
Lemma record_all_counts calls path :
  let s := stats (record_all calls (fresh_manager path)) in
  TotalGenerations s = wrap64 (Z.of_nat (length calls))
  ∧ SuccessfulGenerations s = wrap64 (Z.of_nat (successes calls))
  ∧ FailedGenerations s
    = wrap64 (Z.of_nat (length calls) - Z.of_nat (successes calls)).
Proof.
  induction calls as [|c calls IH] using rev_ind; simpl.
  - replace (successes []) with 0%nat by reflexivity. by vm_compute.
  - rewrite record_all_snoc, successes_snoc, length_app. simpl in *.
    destruct IH as (HT & HS & HF). rewrite HT, HS, HF.
    unfold int_incr, int_add. rewrite !wrap64_add_l.
    destruct (Success c.2); repeat split; f_equal; lia.
Qed.

(** C1. Stats conservation: after any sequence of N calls of
    [RecordGeneration] on a fresh zero-valued ledger, k of them with
    [Success = true], [TotalGenerations = N], [SuccessfulGenerations = k] and
    [FailedGenerations = N - k]; N is a count the [int] fields can hold. *)
Theorem stats_conservation (calls : list (Env * GenerationEvent)) (path : string) :
  Z.of_nat (length calls) < 2 ^ 63 →
  let s := stats (record_all calls (fresh_manager path)) in
  let N := Z.of_nat (length calls) in
  let k := Z.of_nat (successes calls) in
  TotalGenerations s = N
  ∧ SuccessfulGenerations s = k
  ∧ FailedGenerations s = N - k.
Proof.
  intros Hlen. simpl.
  destruct (record_all_counts calls path) as (HT & HS & HF).
  pose proof (successes_le calls).
  rewrite HT, HS, HF. rewrite !wrap64_id; [done|unfold_int; lia..].
Qed.

Lemma stats_conservation_witness :
  let s := stats (record_all sample_calls (fresh_manager "usage_stats.json")) in
  TotalGenerations s = 3 ∧ SuccessfulGenerations s = 2 ∧ FailedGenerations s = 3 - 2.
Proof.
  apply (stats_conservation sample_calls "usage_stats.json"). simpl. lia.
Defined.

(** ** The counting invariant *)

Lemma record_provider_consistent now event ps :
  int_add (SuccessfulUses ps) (FailedUses ps) = TotalUses ps →
  let ps' := record_provider now event ps in
  int_add (SuccessfulUses ps') (FailedUses ps') = TotalUses ps'.
Proof.
  intros H. simpl. destruct (Success event).
  - by rewrite int_incr_add_l, H.
  - by rewrite int_incr_add_r, H.
Qed.

Lemma provider_entry_consistent now event s :
  counts_consistent s →
  let ps := provider_entry now event s in
  int_add (SuccessfulUses ps) (FailedUses ps) = TotalUses ps.
Proof.
  intros [_ H]. unfold provider_entry.
  destruct (ProviderStatsMap s !! Provider event) as [ps|] eqn:E; simpl.
  - by apply (H (Provider event)).
  - reflexivity.
Qed.

Lemma record_event_consistent now event s :
  counts_consistent s → counts_consistent (record_event now event s).
Proof.
  intros Hs. pose proof Hs as [Hg Hp]. split.
  - simpl. destruct (Success event).
    + by rewrite int_incr_add_l, Hg.
    + by rewrite int_incr_add_r, Hg.
  - intros p ps. simpl. rewrite lookup_insert.
    case_decide as Hk.
    + intros [= <-]. by apply record_provider_consistent, provider_entry_consistent.
    + apply Hp.
Qed.

(** C2. The counting invariant: in the fresh ledger, and after every call of
    [RecordGeneration] on a ledger that has it (whatever the persist step
    does), [SuccessfulUses + FailedUses = TotalUses] for every provider key
    of the map and
    [SuccessfulGenerations + FailedGenerations = TotalGenerations]; hence
    in every ledger reached from the fresh one. *)
Theorem counts_invariant :
  (∀ path, counts_consistent (stats (fresh_manager path)))
  ∧ (∀ w event sm,
       counts_consistent (stats sm) →
       counts_consistent (stats (RecordGeneration w event sm).1))
  ∧ (∀ calls path,
       counts_consistent (stats (record_all calls (fresh_manager path)))).
Proof.
  assert (H0 : counts_consistent zero_stats).
  { split; [reflexivity|]. intros p ps. simpl. by rewrite lookup_empty. }
  split; [done|]. split.
  - intros w event sm. apply record_event_consistent.
  - intros calls path. induction calls as [|c calls IH] using rev_ind; [done|].
    rewrite record_all_snoc. by apply record_event_consistent.
Qed.

Lemma counts_invariant_witness :
  counts_consistent
    (stats (RecordGeneration (sample_env "2025-01-01T10:00:00Z" None)
              (sample_event "Gemini" true 100 true false)
              (fresh_manager "usage_stats.json")).1).
Proof.
  apply (proj1 (proj2 counts_invariant)).
  apply (proj1 counts_invariant).
Defined.

(** ** Cache counters *)

(** C5. [RecordGeneration] increments [CacheHits] exactly when the event
    reports that the cache was checked and was a hit, increments
    [CacheMisses] exactly when it was checked and was not a hit, and changes
    neither counter for an event that did not check the cache. *)
Theorem cache_counters (w : Env) (event : GenerationEvent) (sm : StatsManager) :
  let s := stats sm in
  let s' := stats (RecordGeneration w event sm).1 in
  CacheHits s'
    = (if CacheChecked event && CacheHit event
       then int_incr (CacheHits s) else CacheHits s)
  ∧ CacheMisses s'
    = (if CacheChecked event && negb (CacheHit event)
       then int_incr (CacheMisses s) else CacheMisses s)
  ∧ (CacheHits s' ≠ CacheHits s
     ↔ CacheChecked event = true ∧ CacheHit event = true)
  ∧ (CacheMisses s' ≠ CacheMisses s
     ↔ CacheChecked event = true ∧ CacheHit event = false)
  ∧ (CacheChecked event = false →
     CacheHits s' = CacheHits s ∧ CacheMisses s' = CacheMisses s).
Proof.
  simpl.
  pose proof (int_incr_neq (CacheHits (stats sm))).
  pose proof (int_incr_neq (CacheMisses (stats sm))).
  destruct (CacheChecked event), (CacheHit event); simpl; intuition congruence.
Qed.

(** ** Timestamps *)

Lemma first_use_of_run c calls path :
  time_Now c.1 ≠ "" →
  FirstUse (stats (record_all (c :: calls) (fresh_manager path))) = time_Now c.1.
Proof.
  intros Hc. induction calls as [|d calls IH] using rev_ind.
  - reflexivity.
  - rewrite app_comm_cons, record_all_snoc. simpl in *.
    case_decide as E; [|done]. congruence.
Qed.

(** C10. First-use timestamps are written once.  A non-empty global
    [FirstUse] is not changed by [RecordGeneration], and an empty one (the
    fresh ledger's) is set to the time of the call; the [FirstUsed] of a
    provider entry that exists is not changed, and an entry created by the
    call gets the time of the call; [LastUse] and the [LastUsed] of the
    event's provider are overwritten by every call, the entries of the other
    providers being left as they are; after any run from the fresh ledger
    [FirstUse] is the time of the first call. *)
Theorem first_use_written_once (w : Env) (event : GenerationEvent)
    (sm : StatsManager) :
  let s := stats sm in
  let s' := stats (RecordGeneration w event sm).1 in
  (FirstUse s ≠ "" → FirstUse s' = FirstUse s)
  ∧ (FirstUse s = "" → FirstUse s' = time_Now w)
  ∧ (∀ p ps, ProviderStatsMap s !! p = Some ps →
       ∃ ps', ProviderStatsMap s' !! p = Some ps' ∧ FirstUsed ps' = FirstUsed ps)
  ∧ (ProviderStatsMap s !! Provider event = None →
       ∃ ps', ProviderStatsMap s' !! Provider event = Some ps'
              ∧ FirstUsed ps' = time_Now w)
  ∧ (∀ p, p ≠ Provider event →
       ProviderStatsMap s' !! p = ProviderStatsMap s !! p)
  ∧ LastUse s' = time_Now w
  ∧ (∃ ps', ProviderStatsMap s' !! Provider event = Some ps'
            ∧ LastUsed ps' = time_Now w)
  ∧ (∀ c calls path, time_Now c.1 ≠ "" →
       FirstUse (stats (record_all (c :: calls) (fresh_manager path)))
       = time_Now c.1).
Proof.
  simpl. split_and!; [..|apply first_use_of_run].
  - intros H. by case_decide.
  - intros H. by case_decide.
  - intros p ps Hp. rewrite lookup_insert. case_decide as Hk.
    + subst p. eexists. split; [done|]. unfold provider_entry. by rewrite Hp.
    + by exists ps.
  - intros Hp. rewrite lookup_insert_eq. eexists. split; [done|].
    unfold provider_entry. by rewrite Hp.
  - intros p Hp. by rewrite lookup_insert_ne.
  - reflexivity.
  - rewrite lookup_insert_eq. by eexists.
Qed.

(** ** Persistence failures *)

Lemma GetStats_stats sm : GetStats sm = stats sm.
Proof.
  unfold GetStats. destruct (stats sm) as [? ? ? m ? ? ? ? ? ? ?]; simpl. f_equal.
  rewrite <- (map_fmap_id m) at 2. apply map_fmap_ext.
  by intros ? [].
Qed.

(** C7. When the persist step of [RecordGeneration] fails, the call returns
    that error and keeps every in-memory update it made: the manager is the
    one a call with a working persist step leaves, and the reads that follow
    see the updated aggregates. *)
Theorem persist_failure_keeps_memory (w : Env) (event : GenerationEvent)
    (sm : StatsManager) (err : error) :
  save w (RecordGeneration w event sm).1 = Some err →
  let sm' := (RecordGeneration w event sm).1 in
  (RecordGeneration w event sm).2 = Some err
  ∧ stats sm' = record_event (time_Now w) event (stats sm)
  ∧ (∀ w', time_Now w' = time_Now w → (RecordGeneration w' event sm).1 = sm')
  ∧ GetStats sm' = record_event (time_Now w) event (stats sm)
  ∧ TotalGenerations (GetStats sm') = int_incr (TotalGenerations (stats sm))
  ∧ GetSuccessRate sm'
    = percentage (SuccessfulGenerations (stats sm')) (TotalGenerations (stats sm'))
  ∧ ∃ ps, ProviderStatsMap (GetStats sm') !! Provider event = Some ps
          ∧ TotalUses ps
            = int_incr (TotalUses (provider_entry (time_Now w) event (stats sm))).
Proof.
  intros Hsave sm'. split_and!.
  - exact Hsave.
  - reflexivity.
  - intros w' Hnow. unfold sm', RecordGeneration. simpl. by rewrite Hnow.
  - by rewrite GetStats_stats.
  - by rewrite GetStats_stats.
  - reflexivity.
  - rewrite GetStats_stats. simpl. rewrite lookup_insert_eq. by eexists.
Qed.

Lemma persist_failure_keeps_memory_witness :
  let w := sample_env "2025-01-01T10:05:00Z" (Some (ErrOS "no space left on device")) in
  let event := sample_event "Grok" false 200 true true in
  let sm' := (RecordGeneration w event (fresh_manager "usage_stats.json")).1 in
  (RecordGeneration w event (fresh_manager "usage_stats.json")).2
    = Some (ErrOS "no space left on device")
  ∧ TotalGenerations (GetStats sm') = 1.
Proof.
  pose proof (persist_failure_keeps_memory
                (sample_env "2025-01-01T10:05:00Z"
                   (Some (ErrOS "no space left on device")))
                (sample_event "Grok" false 200 true true)
                (fresh_manager "usage_stats.json")
                (ErrOS "no space left on device") eq_refl) as H.
  simpl in H. destruct H as (H1 & _ & _ & _ & H5 & _). split.
  - exact H1.
  - exact H5.
Defined.

(** ** Loading at startup *)

(** C6. [NewStatsManager], once the configuration path is known, succeeds
    with a zero-valued ledger when the stats file does not exist and when it
    has length zero, and returns an error when the content of the file fails
    to parse. *)
Theorem load_at_startup (w : Env) (configPath : string) :
  StoreUtils_GetConfigPath w = inr configPath →
  let statsPath :=
    filepath_Join w (filepath_Dir w configPath) "usage_stats.json" in
  (∀ err, os_ReadFile w statsPath = inl err → IsNotExist err = true →
     NewStatsManager w = inr (fresh_manager statsPath))
  ∧ (os_ReadFile w statsPath = inr [] →
     NewStatsManager w = inr (fresh_manager statsPath))
  ∧ (∀ data msg, os_ReadFile w statsPath = inr data → data ≠ [] →
     (json_Unmarshal w data zero_stats).2 = Some msg →
     NewStatsManager w
     = inl (Errorf "failed to load existing stats" (ErrJSON msg))).
Proof.
  intros Hcfg statsPath. unfold NewStatsManager, load. rewrite Hcfg. simpl.
  fold statsPath. split_and!.
  - intros err Hread Hne. by rewrite Hread, Hne.
  - intros Hread. by rewrite Hread.
  - intros data msg Hread Hdata Hparse. rewrite Hread.
    destruct data as [|b data]; [done|]. simpl.
    destruct (json_Unmarshal w (b :: data) zero_stats) as [s r]. simpl in *.
    by subst r.
Qed.

Lemma load_at_startup_witness :
  NewStatsManager (sample_env "2025-01-01T10:00:00Z" None)
  = inr (fresh_manager "/home/u/.config/commit-msg/usage_stats.json")
  ∧ NewStatsManager corrupt_env
    = inl (Errorf "failed to load existing stats"
             (ErrJSON "unexpected end of JSON input")).
Proof.
  split.
  - eapply (proj1 (load_at_startup (sample_env "2025-01-01T10:00:00Z" None)
                     "/home/u/.config/commit-msg/config.json" eq_refl)).
    + reflexivity.
    + reflexivity.
  - eapply (proj2 (proj2 (load_at_startup corrupt_env
                     "/home/u/.config/commit-msg/config.json" eq_refl))).
    + reflexivity.
    + discriminate.
    + reflexivity.
Defined.

(** ** The running mean *)

Lemma lookup_record w event sm :
  ProviderStatsMap (stats (RecordGeneration w event sm).1) !! Provider event
  = Some (record_provider (time_Now w) event
            (provider_entry (time_Now w) event (stats sm))).
Proof. simpl. by rewrite lookup_insert_eq. Qed.

Lemma provider_entry_found now event s ps :
  ProviderStatsMap s !! Provider event = Some ps →
  provider_entry now event s = ps.
Proof. intros H. unfold provider_entry. by rewrite H. Qed.

(** C3. [RecordGeneration] updates [AverageGenerationTime], globally and for
    the event's provider, by [newAvg = (oldAvg * (n-1) + sample) / n] with
    [n] the count after the increment; three events of 100, 200 and 300 ms
    recorded into a fresh ledger give the averages 100, 150 and 200
    (globally, and for the provider when the three events name the same). *)
Theorem average_time_recurrence :
  (∀ w event sm,
     let s := stats sm in
     let s' := stats (RecordGeneration w event sm).1 in
     AverageGenerationTime s'
     = running_mean_step (AverageGenerationTime s) (TotalGenerations s')
         (GenerationTime event)
     ∧ ∃ ps', ProviderStatsMap s' !! Provider event = Some ps'
         ∧ PAverageGenerationTime ps'
           = running_mean_step
               (PAverageGenerationTime (provider_entry (time_Now w) event s))
               (TotalUses ps') (GenerationTime event))
  ∧ (∀ c1 c2 c3 path,
       GenerationTime c1.2 = 100%float →
       GenerationTime c2.2 = 200%float →
       GenerationTime c3.2 = 300%float →
       let m1 := record_all [c1] (fresh_manager path) in
       let m2 := record_all [c1; c2] (fresh_manager path) in
       let m3 := record_all [c1; c2; c3] (fresh_manager path) in
       (AverageGenerationTime (stats m1) = 100%float
        ∧ AverageGenerationTime (stats m2) = 150%float
        ∧ AverageGenerationTime (stats m3) = 200%float)
       ∧ ∀ p, Provider c1.2 = p → Provider c2.2 = p → Provider c3.2 = p →
           provider_average p m1 = Some 100%float
           ∧ provider_average p m2 = Some 150%float
           ∧ provider_average p m3 = Some 200%float).
Proof.
  split.
  - intros w event sm. simpl. split; [reflexivity|].
    rewrite lookup_insert_eq. by eexists.
  - intros [w1 e1] [w2 e2] [w3 e3] path H1 H2 H3. simpl in H1, H2, H3.
    split.
    + simpl. rewrite H1, H2, H3. by vm_compute.
    + intros p P1 P2 P3. simpl in P1, P2, P3.
      unfold record_all, provider_average. simpl foldl. cbv zeta.
      set (m1 := (RecordGeneration w1 e1 (fresh_manager path)).1).
      set (m2 := (RecordGeneration w2 e2 m1).1).
      set (m3 := (RecordGeneration w3 e3 m2).1).
      pose proof (lookup_record w1 e1 (fresh_manager path)) as L1.
      pose proof (lookup_record w2 e2 m1) as L2.
      pose proof (lookup_record w3 e3 m2) as L3.
      fold m1 in L1. fold m2 in L2. fold m3 in L3.
      subst p.
      assert (E1 : provider_entry (time_Now w1) e1 (stats (fresh_manager path))
                   = new_provider_stats (Provider e1) (time_Now w1)) by reflexivity.
      rewrite E1 in L1.
      rewrite (provider_entry_found _ e2 _ _ ltac:(rewrite P2; exact L1)) in L2.
      rewrite (provider_entry_found _ e3 _ _ ltac:(rewrite P3, <- P2; exact L2)) in L3.
      rewrite P2 in L2. rewrite P3 in L3.
      change (PAverageGenerationTime <$> ProviderStatsMap (stats m1) !! Provider e1
                = Some 100%float
              ∧ PAverageGenerationTime <$> ProviderStatsMap (stats m2) !! Provider e1
                = Some 150%float
              ∧ PAverageGenerationTime <$> ProviderStatsMap (stats m3) !! Provider e1
                = Some 200%float).
      rewrite L1, L2, L3. simpl.
      rewrite H1, H2, H3. by vm_compute.
Qed.

Lemma average_time_recurrence_witness :
  AverageGenerationTime
    (stats (record_all sample_calls (fresh_manager "usage_stats.json")))
  = 200%float.
Proof.
  destruct (proj2 average_time_recurrence
              (sample_env "2025-01-01T10:00:00Z" None,
               sample_event "Gemini" true 100 true false)
              (sample_env "2025-01-01T10:05:00Z" (Some (ErrOS "no space left on device")),
               sample_event "Grok" false 200 true true)
              (sample_env "2025-01-01T10:09:00Z" None,
               sample_event "Gemini" true 300 false false)
              "usage_stats.json" eq_refl eq_refl eq_refl) as [(_ & _ & H) _].
  exact H.
Defined.

(** ** The ranking *)

Lemma exchange_length i j r : length (exchange_if_greater i j r) = length r.
Proof.
  unfold exchange_if_greater.
  destruct (r !! i), (r !! j); try done.
  case_match; [|done]. by rewrite !length_insert.
Qed.

Lemma exchange_perm i j r : exchange_if_greater i j r ≡ₚ r.
Proof.
  unfold exchange_if_greater.
  destruct (r !! i) eqn:Hi, (r !! j) eqn:Hj; try done.
  case_match; [|done]. by apply Permutation_insert_swap.
Qed.

(** What the exchange leaves at [i], at [j] and elsewhere. *)
Lemma exchange_lookup i j r a b :
  i ≠ j → r !! i = Some a → r !! j = Some b →
  let r' := exchange_if_greater i j r in
  r' !! i = Some (if uses a <? uses b then b else a)
  ∧ r' !! j = Some (if uses a <? uses b then a else b)
  ∧ ∀ k, k ≠ i → k ≠ j → r' !! k = r !! k.
Proof.
  intros Hij Hi Hj. simpl. unfold exchange_if_greater. rewrite Hi, Hj.
  pose proof (lookup_lt_Some _ _ _ Hi). pose proof (lookup_lt_Some _ _ _ Hj).
  destruct (uses a <? uses b); [|done]. split_and!.
  - rewrite list_lookup_insert_ne by done. by apply list_lookup_insert_eq.
  - apply list_lookup_insert_eq. by rewrite length_insert.
  - intros k Hki Hkj. by rewrite !list_lookup_insert_ne.
Qed.

Lemma exchange_inv i j r :
  (i < j < length r)%nat → inner_inv i j r →
  inner_inv i (S j) (exchange_if_greater i j r).
Proof.
  intros [Hij Hj] [Hup Hin].
  destruct (lookup_lt_is_Some_2 r i ltac:(lia)) as [a Ha].
  destruct (lookup_lt_is_Some_2 r j Hj) as [b Hb].
  destruct (exchange_lookup i j r a b ltac:(lia) Ha Hb) as (Hi' & Hj' & Hk').
  assert (Hab : uses a <= uses (if uses a <? uses b then b else a)
                ∧ uses (if uses a <? uses b then a else b)
                  <= uses (if uses a <? uses b then b else a)).
  { destruct (Z.ltb_spec (uses a) (uses b)); lia. }
  split.
  - intros p q x y Hp Hpq Hx Hy.
    rewrite Hk' in Hx by lia.
    destruct (decide (q = i)) as [->|Hqi]; [|destruct (decide (q = j)) as [->|Hqj]].
    + rewrite Hi' in Hy. injection Hy as <-.
      destruct (uses a <? uses b).
      * apply (Hup p j x b); [lia..|done|done].
      * apply (Hup p i x a); [lia..|done|done].
    + rewrite Hj' in Hy. injection Hy as <-.
      destruct (uses a <? uses b).
      * apply (Hup p i x a); [lia..|done|done].
      * apply (Hup p j x b); [lia..|done|done].
    + rewrite Hk' in Hy by done. by apply (Hup p q x y).
  - intros q x y Hq Hx Hy. rewrite Hi' in Hx. injection Hx as <-.
    destruct (decide (q = j)) as [->|Hqj].
    + rewrite Hj' in Hy. injection Hy as <-. lia.
    + rewrite Hk' in Hy by lia.
      pose proof (Hin q a y ltac:(lia) Ha Hy). lia.
Qed.

Lemma inner_loop_spec i n : ∀ j r,
  (i < j)%nat → (j + n = length r)%nat → inner_inv i j r →
  let r' := inner_loop n i j r in
  r' ≡ₚ r ∧ length r' = length r ∧ inner_inv i (length r) r'.
Proof.
  induction n as [|n IH]; intros j r Hij Hn Hinv; simpl.
  - replace (length r) with j by lia. done.
  - destruct (IH (S j) (exchange_if_greater i j r)) as (HP & HL & HI).
    + lia.
    + rewrite exchange_length. lia.
    + apply exchange_inv; [lia|done].
    + rewrite exchange_length in HL, HI. split_and!; [|done..].
      by rewrite HP, exchange_perm.
Qed.

Lemma inner_inv_start i r : ranked_upto i r → inner_inv i (S i) r.
Proof. intros H. split; [done|]. intros. lia. Qed.

Lemma inner_inv_end i r : inner_inv i (length r) r → ranked_upto (S i) r.
Proof.
  intros [Hup Hin] p q a b Hp Hpq Ha Hb.
  destruct (decide (p = i)) as [->|].
  - apply (Hin q a b); [|done..]. split; [done|]. by eapply lookup_lt_Some.
  - apply (Hup p q a b); [lia|done..].
Qed.

Lemma outer_loop_spec n : ∀ i r,
  (i + n = length r - 1)%nat → ranked_upto i r →
  let r' := outer_loop n i r in
  r' ≡ₚ r ∧ ranked_upto (length r - 1) r'.
Proof.
  induction n as [|n IH]; intros i r Hn Hup; simpl.
  - by replace (length r - 1)%nat with i by lia.
  - destruct (inner_loop_spec i (length r - S i) (S i) r) as (HP & HL & HI).
    + lia.
    + lia.
    + by apply inner_inv_start.
    + destruct (IH (S i) (inner_loop (length r - S i) i (S i) r)) as (HP' & HU).
      * rewrite HL. lia.
      * apply inner_inv_end. by rewrite HL.
      * rewrite HL in HU. split; [|done]. by rewrite HP'.
Qed.

Lemma sort_rankings_spec r :
  sort_rankings r ≡ₚ r
  ∧ ∀ p q a b, (p < q)%nat →
      sort_rankings r !! p = Some a → sort_rankings r !! q = Some b →
      uses b <= uses a.
Proof.
  destruct (outer_loop_spec (length r - 1) 0 r) as (HP & HU).
  - lia.
  - intros p q a b Hp. lia.
  - fold (sort_rankings r) in HP, HU. split; [done|].
    intros p q a b Hpq Ha Hb. apply (HU p q a b); [|done..].
    pose proof (lookup_lt_Some _ _ _ Hb) as Hq.
    rewrite (Permutation_length HP) in Hq. lia.
Qed.

Section RankingProperties.
Variable range :
  gmap LLMProvider ProviderStats → list (LLMProvider * ProviderStats).
Hypothesis range_visits_each_once : ∀ m, range m ≡ₚ map_to_list m.

(** An entry of the sorted slice carries the use count of its provider. *)
Lemma sorted_entry_uses sm a i ps :
  sort_rankings (collect_rankings range sm) !! i = Some a →
  ProviderStatsMap (stats sm) !! provider a = Some ps →
  uses a = TotalUses ps.
Proof.
  intros Ha Hps.
  assert (Hin : a ∈ collect_rankings range sm).
  { rewrite <- (proj1 (sort_rankings_spec _)). by eapply list_elem_of_lookup_2. }
  unfold collect_rankings in Hin.
  apply list_elem_of_fmap in Hin as ([k v] & -> & Hkv).
  rewrite range_visits_each_once in Hkv.
  apply elem_of_map_to_list in Hkv. simpl in *. congruence.
Qed.

(** C8. [GetProviderRanking] returns a permutation of the provider keys of
    the map, whatever the order in which [range] visits it, and every
    earlier provider of the result has a [TotalUses] greater than or equal
    to that of every later one. *)
Theorem ranking_sorted_permutation (sm : StatsManager) :
  let m := ProviderStatsMap (stats sm) in
  let result := GetProviderRanking range sm in
  result ≡ₚ (map_to_list m).*1
  ∧ NoDup result
  ∧ (∀ x, x ∈ result ↔ is_Some (m !! x))
  ∧ ∀ i j x y sx sy, (i < j)%nat →
      result !! i = Some x → result !! j = Some y →
      m !! x = Some sx → m !! y = Some sy →
      TotalUses sy <= TotalUses sx.
Proof.
  intros m result.
  assert (HP : result ≡ₚ (map_to_list m).*1).
  { unfold result, GetProviderRanking.
    rewrite (proj1 (sort_rankings_spec _)). unfold collect_rankings.
    rewrite <- list_fmap_compose. fold m.
    rewrite (range_visits_each_once m). done. }
  split_and!.
  - exact HP.
  - rewrite HP. apply NoDup_fst_map_to_list.
  - intros x. rewrite HP. rewrite list_elem_of_fmap. split.
    + intros ([k v] & -> & Hkv). apply elem_of_map_to_list in Hkv. by eexists.
    + intros [v Hv]. exists (x, v). split; [done|]. by apply elem_of_map_to_list.
  - intros i j x y sx sy Hij Hx Hy Hsx Hsy.
    unfold result, GetProviderRanking in Hx, Hy.
    rewrite list_lookup_fmap in Hx, Hy.
    apply fmap_Some in Hx as (a & Ha & ->). apply fmap_Some in Hy as (b & Hb & ->).
    rewrite <- (sorted_entry_uses sm a i sx Ha Hsx).
    rewrite <- (sorted_entry_uses sm b j sy Hb Hsy).
    by apply (proj2 (sort_rankings_spec (collect_rankings range sm)) i j).
Qed.
End RankingProperties.

(** ** Binary64 arithmetic on integers

    What [float64(i)], [/] and [*] do on the values the rates are computed
    from, read off the specification of the primitive floats. *)

Module Binary64.

Lemma digits2_pos_size p : digits2_pos p = Pos.size p.
Proof. induction p; simpl; congruence. Qed.

Lemma Zdigits2_log2 m : 0 < m -> Zdigits2 m = Z.log2 m + 1.
Proof.
  destruct m as [|p|p]; try lia. intros _. simpl.
  rewrite digits2_pos_size. destruct p; simpl; lia.
Qed.

Lemma shr_m_shr_1 mrs : 0 <= shr_m mrs -> shr_m (shr_1 mrs) = shr_m mrs / 2.
Proof.
  destruct mrs as [m r s]. intros Hm. rewrite <- Z.div2_div.
  destruct m as [|[p|p|]|p]; try reflexivity. simpl in Hm. lia.
Qed.

Lemma pow2_pos n : 0 <= n -> 0 < 2 ^ n.
Proof. intros. apply Z.pow_pos_nonneg; lia. Qed.

Lemma shr_m_iter n : forall mrs,
  0 <= shr_m mrs -> shr_m (SpecFloat.iter_pos shr_1 n mrs) = shr_m mrs / 2 ^ Zpos n.
Proof.
  induction n as [n IH|n IH|]; intros mrs Hm; cbn [SpecFloat.iter_pos].
  - assert (H1 : 0 <= shr_m (shr_1 mrs)).
    { rewrite shr_m_shr_1 by assumption. apply Z.div_pos; lia. }
    assert (H2 : 0 <= shr_m (SpecFloat.iter_pos shr_1 n (shr_1 mrs))).
    { rewrite IH by assumption. apply Z.div_pos; [assumption|]. apply pow2_pos; lia. }
    pose proof (pow2_pos (Zpos n) ltac:(lia)).
    rewrite IH, IH, shr_m_shr_1 by assumption.
    rewrite !Z.div_div by lia.
    f_equal. replace (Zpos n~1) with (1 + Zpos n + Zpos n) by lia.
    rewrite !Z.pow_add_r by lia. change (2 ^ 1) with 2. lia.
  - assert (H2 : 0 <= shr_m (SpecFloat.iter_pos shr_1 n mrs)).
    { rewrite IH by assumption. apply Z.div_pos; [assumption|]. apply pow2_pos; lia. }
    pose proof (pow2_pos (Zpos n) ltac:(lia)).
    rewrite IH, IH by assumption.
    rewrite !Z.div_div by lia.
    f_equal. replace (Zpos n~0) with (Zpos n + Zpos n) by lia.
    rewrite !Z.pow_add_r by lia. lia.
  - rewrite shr_m_shr_1 by assumption. reflexivity.
Qed.

(** the mantissa and exponent [shr_fexp] leaves *)
Lemma shr_fexp_spec m e l :
  0 <= m ->
  let n := Z.max 0 (fexp prec emax (Zdigits2 m + e) - e) in
  shr_m (fst (shr_fexp prec emax m e l)) = m / 2 ^ n
  /\ snd (shr_fexp prec emax m e l) = e + n.
Proof.
  intros Hm n. unfold shr_fexp, shr.
  assert (Hr : shr_m (shr_record_of_loc m l) = m) by (destruct l as [|[]]; reflexivity).
  subst n. destruct (fexp prec emax (Zdigits2 m + e) - e) as [|p|p]; cbn [fst snd].
  - rewrite Hr. cbn. rewrite Z.div_1_r. lia.
  - rewrite shr_m_iter, Hr by lia. rewrite Z.max_r by lia. split; reflexivity.
  - rewrite Hr. rewrite Z.max_l by lia. cbn. rewrite Z.div_1_r. lia.
Qed.

Lemma round_nearest_even_bounds m l :
  m <= round_nearest_even m l <= m + 1.
Proof.
  unfold round_nearest_even. destruct l as [|[]]; try lia. destruct (Z.even m); lia.
Qed.

Lemma binary_round_aux_not_nan sx mx ex lx :
  0 <= mx -> binary_round_aux prec emax sx mx ex lx <> S754_nan.
Proof.
  intros Hm. unfold binary_round_aux.
  destruct (shr_fexp_spec mx ex lx Hm) as [H1 _].
  destruct (shr_fexp prec emax mx ex lx) as [mrs1 e1]. cbn [fst snd] in *.
  set (m2 := round_nearest_even (shr_m mrs1) (loc_of_shr_record mrs1)).
  assert (H2 : 0 <= m2).
  { pose proof (round_nearest_even_bounds (shr_m mrs1) (loc_of_shr_record mrs1)).
    assert (0 <= shr_m mrs1) by (rewrite H1; apply Z.div_pos; [lia|apply pow2_pos; lia]).
    unfold m2. lia. }
  destruct (shr_fexp_spec m2 e1 loc_Exact H2) as [H3 _].
  destruct (shr_fexp prec emax m2 e1 loc_Exact) as [mrs3 e3]. cbn [fst snd] in *.
  assert (0 <= shr_m mrs3) by (rewrite H3; apply Z.div_pos; [lia|apply pow2_pos; lia]).
  destruct (shr_m mrs3); try discriminate; try lia.
  destruct (e3 <=? emax - prec); discriminate.
Qed.

Lemma iter_xO mx k : Zpos (Pos.iter xO mx k) = Zpos mx * 2 ^ Zpos k.
Proof.
  induction k as [|k IH] using Pos.peano_ind.
  - simpl. lia.
  - rewrite Pos.iter_succ, Pos2Z.inj_xO, IH, Pos2Z.inj_succ, Z.pow_succ_r by lia. lia.
Qed.

Lemma fexp_normal x : -1021 <= x -> fexp prec emax x = x - 53.
Proof. unfold fexp, SpecFloat.emin, prec, emax. lia. Qed.

Lemma log2_pos_gt m : 0 < Z.log2 m -> 0 < m.
Proof. intros H. destruct (Z.lt_ge_cases 0 m) as [|Hle]; [assumption|]. rewrite Z.log2_nonpos in H; lia. Qed.

(** one rounding shift of a positive mantissa in the normal range *)
Lemma shr_fexp_normal m e l :
  0 < m -> -1021 <= Zdigits2 m + e ->
  let n := Z.max 0 (Zdigits2 m - 53) in
  let m' := shr_m (fst (shr_fexp prec emax m e l)) in
  0 < m' /\ Z.log2 m' = Z.log2 m - n /\ snd (shr_fexp prec emax m e l) = e + n.
Proof.
  intros Hm Hd. cbv zeta.
  destruct (shr_fexp_spec m e l ltac:(lia)) as [H1 H2].
  rewrite fexp_normal in H1, H2 by assumption.
  replace (Zdigits2 m + e - 53 - e) with (Zdigits2 m - 53) in H1, H2 by lia.
  rewrite H2. clear H2.
  set (n := Z.max 0 (Zdigits2 m - 53)) in *.
  set (m' := shr_m (fst (shr_fexp prec emax m e l))) in *.
  assert (Hn : 0 <= n) by lia.
  assert (Hl : Z.log2 m' = Z.log2 m - n).
  { rewrite H1, <- Z.shiftr_div_pow2, Z.log2_shiftr by assumption.
    unfold n. rewrite Zdigits2_log2 by assumption.
    pose proof (Z.log2_nonneg m). lia. }
  split; [|split; [assumption|reflexivity]].
  destruct (Z.eq_dec n 0) as [E|E].
  - rewrite H1, E. simpl. rewrite Z.div_1_r. assumption.
  - apply log2_pos_gt. unfold n in *. rewrite Zdigits2_log2 in * by assumption. lia.
Qed.

Lemma binary_round_aux_finite sx m e l :
  0 < m -> -1021 <= Zdigits2 m + e ->
  e + Z.max 0 (Zdigits2 m - 53) + 1 <= 971 ->
  exists m' e', binary_round_aux prec emax sx m e l = S754_finite sx m' e'.
Proof.
  intros Hm Hd He. unfold binary_round_aux.
  destruct (shr_fexp_normal m e l Hm Hd) as (P1 & L1 & E1).
  destruct (shr_fexp prec emax m e l) as [mrs1 e1]. cbn [fst snd] in *.
  set (m2 := round_nearest_even (shr_m mrs1) (loc_of_shr_record mrs1)).
  pose proof (round_nearest_even_bounds (shr_m mrs1) (loc_of_shr_record mrs1)) as B.
  fold m2 in B.
  assert (P2 : 0 < m2) by lia.
  assert (L2 : Z.log2 (shr_m mrs1) <= Z.log2 m2 <= Z.log2 (shr_m mrs1) + 1).
  { split; [apply Z.log2_le_mono; lia|].
    transitivity (Z.log2 (Z.succ (shr_m mrs1))); [apply Z.log2_le_mono; lia|].
    pose proof (Z.log2_succ_le (shr_m mrs1)). lia. }
  rewrite Zdigits2_log2 in * by assumption.
  assert (D2 : -1021 <= Zdigits2 m2 + e1) by (rewrite Zdigits2_log2 by assumption; lia).
  destruct (shr_fexp_normal m2 e1 loc_Exact P2 D2) as (P3 & L3 & E3).
  destruct (shr_fexp prec emax m2 e1 loc_Exact) as [mrs3 e3]. cbn [fst snd] in *.
  rewrite Zdigits2_log2 in E3 by assumption.
  destruct (shr_m mrs3) as [|m3|m3]; try lia.
  replace (e3 <=? emax - prec) with true.
  - eauto.
  - symmetry. apply Z.leb_le. unfold emax, prec. lia.
Qed.

Lemma binary_round_int sx mx :
  Zpos mx <= 2 ^ 63 ->
  exists m e, binary_round prec emax sx mx 0 = S754_finite sx m e.
Proof.
  intros Hmx. unfold binary_round, shl_align.
  assert (Hl : 0 <= Z.log2 (Zpos mx) < 64).
  { split; [apply Z.log2_nonneg|]. apply Z.log2_lt_pow2; [lia|].
    change (2 ^ 64) with (2 * 2 ^ 63). lia. }
  change (Zpos (digits2_pos mx)) with (Zdigits2 (Zpos mx)).
  rewrite Zdigits2_log2 by lia. rewrite fexp_normal by lia.
  destruct (Z.log2 (Z.pos mx) + 1 + 0 - 53 - 0) as [|k|k] eqn:Ek;
    apply binary_round_aux_finite; try lia;
    try (rewrite Zdigits2_log2 by lia; lia).
  - rewrite Zdigits2_log2, iter_xO, Z.log2_mul_pow2 by lia. lia.
  - rewrite Zdigits2_log2, iter_xO, Z.log2_mul_pow2 by lia. lia.
Qed.

Lemma binary_normalize_int z :
  - 2 ^ 63 <= z < 2 ^ 63 -> z <> 0 ->
  exists s m e, binary_normalize prec emax z 0 false = S754_finite s m e.
Proof.
  intros Hz Hne. destruct z as [|p|p]; [lia| |]; simpl.
  - exists false. apply binary_round_int. lia.
  - exists true. apply binary_round_int. lia.
Qed.

Lemma binary_round_aux_opp m e l :
  binary_round_aux prec emax true m e l
  = SFopp (binary_round_aux prec emax false m e l).
Proof.
  unfold binary_round_aux.
  destruct (shr_fexp prec emax m e l) as [mrs1 e1].
  destruct (shr_fexp prec emax _ e1 loc_Exact) as [mrs3 e3].
  destruct (shr_m mrs3); try reflexivity.
  destruct (e3 <=? emax - prec); reflexivity.
Qed.

Lemma binary_round_opp m e :
  binary_round prec emax true m e = SFopp (binary_round prec emax false m e).
Proof.
  unfold binary_round. destruct (shl_align m e _) as [mz ez].
  apply binary_round_aux_opp.
Qed.

Lemma of_uint63_nonneg z :
  0 <= z < 2 ^ 63 ->
  Prim2SF (of_uint63 (Uint63.of_Z z)) = binary_normalize prec emax z 0 false.
Proof.
  intros Hz. rewrite of_uint63_spec. f_equal.
  rewrite Uint63.of_Z_spec. apply Z.mod_small. exact Hz.
Qed.

Lemma Prim2SF_float64_of_int z :
  - 2 ^ 63 <= z < 2 ^ 63 ->
  Prim2SF (float64_of_int z) = binary_normalize prec emax z 0 false.
Proof.
  intros Hz. unfold float64_of_int.
  destruct (Z.eq_dec z (- 2 ^ 63)) as [->|Hmin]; [vm_compute; reflexivity|].
  destruct z as [|p|p].
  - vm_compute; reflexivity.
  - rewrite <- of_uint63_nonneg by lia. rewrite SF2Prim_Prim2SF. reflexivity.
  - change (binary_normalize prec emax (Z.neg p) 0 false)
      with (binary_round prec emax true p 0).
    rewrite binary_round_opp.
    change (binary_round prec emax false p 0)
      with (binary_normalize prec emax (Z.pos p) 0 false).
    rewrite <- of_uint63_nonneg by lia.
    rewrite <- FloatAxioms.opp_spec, SF2Prim_Prim2SF. reflexivity.
Qed.

Lemma SFdiv_not_nan x y :
  sf_is_zero_or_finite x = true -> sf_is_finite y = true ->
  SFdiv prec emax x y <> S754_nan.
Proof.
  destruct x as [sx|sx| |sx mx ex], y as [sy|sy| |sy my ey]; try discriminate.
  intros _ _. unfold SFdiv, SFdiv_core_binary.
  set (m' := match _ with Z0 => Zpos mx | Zpos _ => _ | Zneg _ => 0 end).
  assert (Hm' : 0 <= m').
  { unfold m'. match goal with |- context [match ?s with _ => _ end] => destruct s end; try lia.
    apply Z.shiftl_nonneg. lia. }
  pose proof (Z_div_mod m' (Zpos my) ltac:(lia)) as Hdm.
  destruct (Z.div_eucl m' (Zpos my)) as [q r].
  apply binary_round_aux_not_nan. nia.
Qed.

Lemma SFmul_finite_not_nan x y :
  x <> S754_nan -> sf_is_finite y = true -> SFmul prec emax x y <> S754_nan.
Proof.
  destruct x as [sx|sx| |sx mx ex], y as [sy|sy| |sy my ey]; try discriminate; try congruence.
  intros _ _. simpl. apply binary_round_aux_not_nan. lia.
Qed.

Lemma SFeqb_refl x : x <> S754_nan -> SFeqb x x = true.
Proof.
  destruct x as [s|s| |s m e]; try congruence; intros _; unfold SFeqb; simpl.
  - reflexivity.
  - destruct s; reflexivity.
  - rewrite Z.compare_refl, Pos.compare_cont_refl. destruct s; reflexivity.
Qed.

Lemma is_nan_false x : Prim2SF x <> S754_nan -> is_nan x = false.
Proof.
  intros H. unfold is_nan. rewrite FloatAxioms.eqb_spec, SFeqb_refl by assumption. reflexivity.
Qed.

Lemma is_zero_false x : sf_is_finite (Prim2SF x) = true -> is_zero x = false.
Proof.
  intros H. unfold is_zero. rewrite FloatAxioms.eqb_spec.
  replace (Prim2SF zero) with (S754_zero false) by (vm_compute; reflexivity).
  destruct (Prim2SF x) as [s|s| |s m e]; try discriminate.
  unfold SFeqb. simpl. destruct s; reflexivity.
Qed.

Lemma float64_of_int_shape z :
  - 2 ^ 63 <= z < 2 ^ 63 ->
  sf_is_zero_or_finite (Prim2SF (float64_of_int z)) = true
  /\ (z <> 0 -> sf_is_finite (Prim2SF (float64_of_int z)) = true).
Proof.
  intros Hz. rewrite Prim2SF_float64_of_int by assumption.
  destruct (Z.eq_dec z 0) as [->|Hne].
  - split; [reflexivity|congruence].
  - destruct (binary_normalize_int z Hz Hne) as (s & m & e & ->). split; reflexivity.
Qed.

(** [a / b * 100] for integers [a] and [b <> 0] *)
Lemma ratio_not_nan a b :
  - 2 ^ 63 <= a < 2 ^ 63 -> - 2 ^ 63 <= b < 2 ^ 63 -> b <> 0 ->
  is_nan (float64_of_int a / float64_of_int b * 100)%float = false.
Proof.
  intros Ha Hb Hne. apply is_nan_false.
  rewrite FloatAxioms.mul_spec, FloatAxioms.div_spec.
  apply SFmul_finite_not_nan.
  - apply SFdiv_not_nan.
    + apply float64_of_int_shape, Ha.
    + apply float64_of_int_shape; assumption.
  - vm_compute. reflexivity.
Qed.

End Binary64.

(** ** The rates *)

(** C4. [GetSuccessRate] returns
    [SuccessfulGenerations / TotalGenerations * 100], and [0] when
    [TotalGenerations] is [0]; [GetCacheHitRate] returns
    [CacheHits / (CacheHits + CacheMisses) * 100], and [0] when
    [CacheHits + CacheMisses] is [0]; three hits and one miss give exactly
    [75]; the divisor of a division that is carried out is never zero, and
    neither result is a NaN.  The counters are values of Go's [int]. *)
Theorem rates_defined (sm : StatsManager) :
  let s := stats sm in
  int_ok (SuccessfulGenerations s) → int_ok (TotalGenerations s) →
  int_ok (CacheHits s) → int_ok (CacheMisses s) →
  GetSuccessRate sm
    = percentage (SuccessfulGenerations s) (TotalGenerations s)
  ∧ GetCacheHitRate sm
    = percentage (CacheHits s) (int_add (CacheHits s) (CacheMisses s))
  ∧ (int_ok (CacheHits s + CacheMisses s) →
     GetCacheHitRate sm = percentage (CacheHits s) (CacheHits s + CacheMisses s))
  ∧ (TotalGenerations s = 0 → GetSuccessRate sm = 0%float)
  ∧ (CacheHits s + CacheMisses s = 0 → GetCacheHitRate sm = 0%float)
  ∧ (CacheHits s = 3 → CacheMisses s = 1 → GetCacheHitRate sm = 75%float)
  ∧ (CacheHits s = 0 → CacheMisses s = 0 → GetCacheHitRate sm = 0%float)
  ∧ (TotalGenerations s ≠ 0 →
     is_zero (float64_of_int (TotalGenerations s)) = false)
  ∧ (int_add (CacheHits s) (CacheMisses s) ≠ 0 →
     is_zero (float64_of_int (int_add (CacheHits s) (CacheMisses s))) = false)
  ∧ is_nan (GetSuccessRate sm) = false
  ∧ is_nan (GetCacheHitRate sm) = false.
Proof.
  intros s HS HT HH HM.
  unfold GetSuccessRate, GetCacheHitRate, percentage. fold s. split_and!.
  - reflexivity.
  - reflexivity.
  - intros Hsum. by rewrite (wrap64_id _ Hsum : int_add _ _ = _).
  - intros ->. reflexivity.
  - intros Hsum. unfold int_add. rewrite Hsum. reflexivity.
  - intros -> ->. by vm_compute.
  - intros -> ->. reflexivity.
  - intros Hne. by apply Binary64.is_zero_false, Binary64.float64_of_int_shape.
  - intros Hne. apply Binary64.is_zero_false, Binary64.float64_of_int_shape; [apply wrap64_ok|done].
  - destruct (Z.eqb_spec (TotalGenerations s) 0); [reflexivity|].
    by apply Binary64.ratio_not_nan.
  - destruct (Z.eqb_spec (int_add (CacheHits s) (CacheMisses s)) 0); [reflexivity|].
    apply Binary64.ratio_not_nan; [done|apply wrap64_ok|done].
Qed.

Ltac int_ok_closed := vm_compute; split; [discriminate|reflexivity].

Lemma rates_defined_witness :
  GetCacheHitRate (record_all cache_calls (fresh_manager "usage_stats.json"))
  = 75%float
  ∧ is_nan (GetSuccessRate
              (record_all cache_calls (fresh_manager "usage_stats.json")))
    = false.
Proof.
  pose proof (rates_defined (record_all cache_calls (fresh_manager "usage_stats.json"))
                ltac:(int_ok_closed) ltac:(int_ok_closed)
                ltac:(int_ok_closed) ltac:(int_ok_closed)) as H.
  destruct H as (_ & _ & _ & _ & _ & H75 & _ & _ & _ & Hnan & _). split.
  - apply H75; reflexivity.
  - exact Hnan.
Defined.

Lemma ranking_sorted_permutation_witness :
  let sm := record_all sample_calls (fresh_manager "usage_stats.json") in
  GetProviderRanking map_to_list sm = ["Gemini"; "Grok"]
  ∧ GetProviderRanking map_to_list sm
    ≡ₚ (map_to_list (ProviderStatsMap (stats sm))).*1.
Proof.
  split.
  - by vm_compute.
  - apply (ranking_sorted_permutation map_to_list (fun m => reflexivity _)
             (record_all sample_calls (fresh_manager "usage_stats.json"))).
Defined.

(** ** Evaluations *)

Example int_incr_wraps : int_incr (2 ^ 63 - 1) = - 2 ^ 63.
Proof. reflexivity. Qed.

Example float64_of_int_ties_to_even :
  float64_of_int 9007199254740993 = 9007199254740992%float
  ∧ float64_of_int (- 2 ^ 63) = (-9223372036854775808)%float.
Proof. by vm_compute. Qed.

Example sort_rankings_example :
  sort_rankings [ {| provider := "OpenAI"; uses := 1 |};
                  {| provider := "Claude"; uses := 3 |};
                  {| provider := "Gemini"; uses := 2 |};
                  {| provider := "Grok"; uses := 3 |} ]
  = [ {| provider := "Claude"; uses := 3 |};
      {| provider := "Grok"; uses := 3 |};
      {| provider := "Gemini"; uses := 2 |};
      {| provider := "OpenAI"; uses := 1 |} ].
Proof. reflexivity. Qed.

Example sample_run :
  let sm := record_all sample_calls (fresh_manager "usage_stats.json") in
  TotalGenerations (stats sm) = 3
  ∧ CacheHits (stats sm) = 1 ∧ CacheMisses (stats sm) = 1
  ∧ FirstUse (stats sm) = "2025-01-01T10:00:00Z"
  ∧ LastUse (stats sm) = "2025-01-01T10:09:00Z"
  ∧ GetCacheHitRate sm = 50%float
  ∧ (TotalUses <$> ProviderStatsMap (stats sm) !! "Gemini") = Some 2
  ∧ (SuccessRate <$> ProviderStatsMap (stats sm) !! "Grok") = Some 0%float.
Proof. by vm_compute. Qed.

Example sample_call_fails_to_persist :
  (RecordGeneration
     (sample_env "2025-01-01T10:05:00Z" (Some (ErrOS "no space left on device")))
     (sample_event "Grok" false 200 true true)
     (fresh_manager "usage_stats.json")).2
  = Some (ErrOS "no space left on device").
Proof. reflexivity. Qed.

(** * Further properties of the package *)

(** ** The most used provider *)

(** What the loop of [GetMostUsedProvider] has found after visiting [l]. *)
Lemma most_used_fold (l : list (LLMProvider * ProviderStats)) :
  let r := foldl most_used_step ("", 0) l in
  0 <= r.2
  ∧ (∀ j e, l !! j = Some e → TotalUses e.2 <= r.2)
  ∧ (r.2 = 0 → r.1 = "")
  ∧ (0 < r.2 →
     ∃ i s, l !! i = Some (r.1, s) ∧ TotalUses s = r.2
            ∧ ∀ j e, (j < i)%nat → l !! j = Some e → TotalUses e.2 < r.2).
Proof.
  induction l as [|x l IH] using rev_ind; simpl.
  - split_and!; [lia| |done|lia]. intros j e. by rewrite lookup_nil.
  - rewrite foldl_app. simpl. simpl in IH.
    destruct IH as (H0 & Hall & Hz & Hpos).
    set (r := foldl most_used_step ("", 0) l) in *.
    assert (E : most_used_step r x
                = if r.2 <? TotalUses x.2 then (x.1, TotalUses x.2) else r)
      by reflexivity.
    rewrite E. clear E.
    destruct (Z.ltb_spec r.2 (TotalUses x.2)) as [Hlt|Hge]; simpl.
    + split_and!.
      * lia.
      * intros j e Hj. apply lookup_app_Some in Hj as [Hj|[Hlen Hj]].
        -- pose proof (Hall j e Hj). lia.
        -- apply list_lookup_singleton_Some in Hj as [_ <-]. lia.
      * lia.
      * intros _. exists (length l), x.2. split_and!.
        -- rewrite lookup_app_r by lia. rewrite Nat.sub_diag. by destruct x.
        -- done.
        -- intros j e Hj He. rewrite lookup_app_l in He by done.
           pose proof (Hall j e He). lia.
    + split_and!.
      * done.
      * intros j e Hj. apply lookup_app_Some in Hj as [Hj|[Hlen Hj]].
        -- by apply (Hall j e).
        -- by apply list_lookup_singleton_Some in Hj as [_ <-].
      * done.
      * intros Hr. destruct (Hpos Hr) as (i & s & Hi & Hs & Hfirst).
        exists i, s. split_and!; [|done|].
        -- by apply lookup_app_l_Some.
        -- intros j e Hj He. pose proof (lookup_lt_Some _ _ _ Hi).
           rewrite lookup_app_l in He by lia. by apply (Hfirst j e).
Qed.

Section MostUsedProperties.
Variable range :
  gmap LLMProvider ProviderStats → list (LLMProvider * ProviderStats).
Hypothesis range_visits_each_once : ∀ m, range m ≡ₚ map_to_list m.

Lemma range_lookup m j e :
  range m !! j = Some e → m !! e.1 = Some e.2.
Proof.
  intros Hj. apply list_elem_of_lookup_2 in Hj.
  rewrite range_visits_each_once in Hj. destruct e. by apply elem_of_map_to_list.
Qed.

Lemma range_entry m k s :
  m !! k = Some s → ∃ j, range m !! j = Some (k, s).
Proof.
  intros Hk. apply list_elem_of_lookup.
  rewrite range_visits_each_once. by apply elem_of_map_to_list.
Qed.

(** X1. [GetMostUsedProvider] returns the largest use count of the map, or [0]
    when no provider has a positive count; a positive count comes with a
    provider of the map that has it, a zero count with the empty name. *)
Theorem most_used_is_maximum (sm : StatsManager) :
  let m := ProviderStatsMap (stats sm) in
  let r := GetMostUsedProvider range sm in
  0 <= r.2
  ∧ (∀ k s, m !! k = Some s → TotalUses s <= r.2)
  ∧ (0 < r.2 → ∃ s, m !! r.1 = Some s ∧ TotalUses s = r.2)
  ∧ (r.2 = 0 → r.1 = "")
  ∧ (m = ∅ → r = ("", 0)).
Proof.
  intros m r.
  destruct (most_used_fold (range m)) as (H0 & Hall & Hz & Hpos).
  fold (GetMostUsedProvider range sm) in H0, Hall, Hz, Hpos. fold r in H0, Hall, Hz, Hpos.
  split_and!.
  - done.
  - intros k s Hk. destruct (range_entry m k s Hk) as [j Hj].
    apply (Hall j (k, s) Hj).
  - intros Hr. destruct (Hpos Hr) as (i & s & Hi & Hs & _).
    exists s. split; [|done]. apply (range_lookup m i (r.1, s) Hi).
  - done.
  - intros Hm. unfold r, GetMostUsedProvider. fold m.
    pose proof (range_visits_each_once m) as HP.
    rewrite Hm, map_to_list_empty in HP. apply Permutation_nil_r in HP.
    rewrite Hm, HP. reflexivity.
Qed.

(** X2. Ties go to the provider visited first: no provider visited before the
    one returned has as large a count. *)
Theorem most_used_first_visited (sm : StatsManager) :
  let visited := range (ProviderStatsMap (stats sm)) in
  let r := GetMostUsedProvider range sm in
  0 < r.2 →
  ∃ i s, visited !! i = Some (r.1, s) ∧ TotalUses s = r.2
         ∧ ∀ j e, (j < i)%nat → visited !! j = Some e → TotalUses e.2 < r.2.
Proof.
  intros visited r Hr.
  destruct (most_used_fold visited) as (_ & _ & _ & Hpos). by apply Hpos.
Qed.
End MostUsedProperties.

(** X3. The count [GetMostUsedProvider] returns does not depend on the order in
    which the map is visited. *)
Theorem most_used_count_order_independent
    (range1 range2 : gmap LLMProvider ProviderStats →
                     list (LLMProvider * ProviderStats))
    (sm : StatsManager) :
  (∀ m, range1 m ≡ₚ map_to_list m) →
  (∀ m, range2 m ≡ₚ map_to_list m) →
  (GetMostUsedProvider range1 sm).2 = (GetMostUsedProvider range2 sm).2.
Proof.
  intros H1 H2.
  destruct (most_used_fold (range1 (ProviderStatsMap (stats sm))))
    as (A0 & Aall & _ & Apos).
  destruct (most_used_fold (range2 (ProviderStatsMap (stats sm))))
    as (B0 & Ball & _ & Bpos).
  fold (GetMostUsedProvider range1 sm) in A0, Aall, Apos.
  fold (GetMostUsedProvider range2 sm) in B0, Ball, Bpos.
  set (a := GetMostUsedProvider range1 sm) in *.
  set (b := GetMostUsedProvider range2 sm) in *.
  assert (a.2 <= b.2).
  { destruct (Z.eq_dec a.2 0) as [E|E]; [lia|].
    destruct (Apos ltac:(lia)) as (i & s & Hi & Hs & _).
    pose proof (range_lookup range1 H1 _ _ _ Hi) as Hm.
    destruct (range_entry range2 H2 _ _ _ Hm) as [j Hj].
    pose proof (Ball j _ Hj). simpl in *. lia. }
  assert (b.2 <= a.2).
  { destruct (Z.eq_dec b.2 0) as [E|E]; [lia|].
    destruct (Bpos ltac:(lia)) as (i & s & Hi & Hs & _).
    pose proof (range_lookup range2 H2 _ _ _ Hi) as Hm.
    destruct (range_entry range1 H1 _ _ _ Hm) as [j Hj].
    pose proof (Aall j _ Hj). simpl in *. lia. }
  lia.
Qed.

(** ** More on the ranking *)

Lemma exchange_ranked i j r :
  ranked r → (i < j)%nat → exchange_if_greater i j r = r.
Proof.
  intros Hr Hij. unfold exchange_if_greater.
  destruct (r !! i) as [a|] eqn:Ha; [|done].
  destruct (r !! j) as [b|] eqn:Hb; [|done].
  pose proof (Hr i j a b Hij Ha Hb).
  destruct (Z.ltb_spec (uses a) (uses b)); [lia|done].
Qed.

Lemma inner_loop_ranked n : ∀ i j r,
  ranked r → (i < j)%nat → inner_loop n i j r = r.
Proof.
  induction n as [|n IH]; intros i j r Hr Hij; simpl; [done|].
  rewrite exchange_ranked by done. apply IH; [done|lia].
Qed.

Lemma outer_loop_ranked n : ∀ i r, ranked r → outer_loop n i r = r.
Proof.
  induction n as [|n IH]; intros i r Hr; simpl; [done|].
  rewrite inner_loop_ranked by (done || lia). by apply IH.
Qed.

Lemma sort_rankings_ranked r : ranked (sort_rankings r).
Proof. intros p q a b. apply (proj2 (sort_rankings_spec r)). Qed.

(** X5. The exchange sort keeps the length of the slice, leaves a slice that is
    already in non-increasing order as it is, and sorting a second time
    changes nothing. *)
Theorem sort_rankings_fixed_points :
  (∀ r, length (sort_rankings r) = length r)
  ∧ (∀ r, ranked r → sort_rankings r = r)
  ∧ (∀ r, sort_rankings (sort_rankings r) = sort_rankings r).
Proof.
  split_and!.
  - intros r. apply Permutation_length, sort_rankings_spec.
  - intros r Hr. by apply outer_loop_ranked.
  - intros r. apply outer_loop_ranked, sort_rankings_ranked.
Qed.

Section RankingAndMostUsed.
Variables ranking_range most_used_range :
  gmap LLMProvider ProviderStats → list (LLMProvider * ProviderStats).
Hypothesis ranking_range_ok : ∀ m, ranking_range m ≡ₚ map_to_list m.
Hypothesis most_used_range_ok : ∀ m, most_used_range m ≡ₚ map_to_list m.

Lemma ranking_keys sm :
  GetProviderRanking ranking_range sm
  ≡ₚ (map_to_list (ProviderStatsMap (stats sm))).*1.
Proof.
  unfold GetProviderRanking.
  rewrite (proj1 (sort_rankings_spec _)). unfold collect_rankings.
  rewrite <- list_fmap_compose.
  by rewrite (ranking_range_ok (ProviderStatsMap (stats sm))).
Qed.

Lemma ranking_order sm i j x y sx sy :
  (i < j)%nat →
  GetProviderRanking ranking_range sm !! i = Some x →
  GetProviderRanking ranking_range sm !! j = Some y →
  ProviderStatsMap (stats sm) !! x = Some sx →
  ProviderStatsMap (stats sm) !! y = Some sy →
  TotalUses sy <= TotalUses sx.
Proof.
  intros Hij Hx Hy Hsx Hsy. unfold GetProviderRanking in Hx, Hy.
  rewrite list_lookup_fmap in Hx, Hy.
  apply fmap_Some in Hx as (a & Ha & ->). apply fmap_Some in Hy as (b & Hb & ->).
  rewrite <- (sorted_entry_uses ranking_range ranking_range_ok sm a i sx Ha Hsx).
  rewrite <- (sorted_entry_uses ranking_range ranking_range_ok sm b j sy Hb Hsy).
  by apply (proj2 (sort_rankings_spec (collect_rankings ranking_range sm)) i j).
Qed.

(** X4. The ranking and the most used provider agree: the first provider of
    [GetProviderRanking] has the use count [GetMostUsedProvider] returns (or
    a count that is not positive, when that one returns [0]), whatever the
    two orders of visit. *)
Theorem ranking_head_is_most_used (sm : StatsManager) (x : LLMProvider)
    (sx : ProviderStats) :
  GetProviderRanking ranking_range sm !! 0%nat = Some x →
  ProviderStatsMap (stats sm) !! x = Some sx →
  (GetMostUsedProvider most_used_range sm).2 = Z.max 0 (TotalUses sx).
Proof.
  intros Hx Hsx.
  destruct (most_used_fold (most_used_range (ProviderStatsMap (stats sm))))
    as (H0 & Hall & _ & Hpos).
  fold (GetMostUsedProvider most_used_range sm) in H0, Hall, Hpos.
  set (r := GetMostUsedProvider most_used_range sm) in *.
  assert (Hge : TotalUses sx <= r.2).
  { destruct (range_entry most_used_range most_used_range_ok _ _ _ Hsx) as [j Hj].
    apply (Hall j _ Hj). }
  destruct (Z.eq_dec r.2 0) as [E|E]; [lia|].
  destruct (Hpos ltac:(lia)) as (i & s & Hi & Hs & _).
  pose proof (range_lookup most_used_range most_used_range_ok _ _ _ Hi) as Hm.
  simpl in Hm.
  assert (Hin : r.1 ∈ GetProviderRanking ranking_range sm).
  { rewrite ranking_keys. apply list_elem_of_fmap. exists (r.1, s).
    split; [done|]. by apply elem_of_map_to_list. }
  apply list_elem_of_lookup in Hin as [j Hj].
  destruct j as [|j].
  - rewrite Hx in Hj. injection Hj as ->. rewrite Hsx in Hm. injection Hm as ->. lia.
  - pose proof (ranking_order sm 0 (S j) x r.1 sx s ltac:(lia) Hx Hj Hsx Hm). lia.
Qed.
End RankingAndMostUsed.

(** ** Global counters and provider counters *)

Lemma sum_permutation (l1 l2 : list Z) :
  l1 ≡ₚ l2 → foldr Z.add 0 l1 = foldr Z.add 0 l2.
Proof. induction 1; simpl; lia. Qed.

Lemma provider_sum_insert f m k v :
  provider_sum f (<[k:=v]> m)
  = provider_sum f m - default 0 (f <$> m !! k) + f v.
Proof.
  unfold provider_sum. destruct (m !! k) as [x|] eqn:Hk; simpl.
  - rewrite <- (insert_delete_eq m k v).
    rewrite (sum_permutation _ _
               (fmap_Permutation _ _ _
                  (map_to_list_insert (delete k m) k v (lookup_delete_eq m k)))).
    rewrite (sum_permutation (_ <$> map_to_list m) _
               (fmap_Permutation _ _ _
                  (Permutation_sym (map_to_list_delete m k x Hk)))).
    rewrite !fmap_cons. simpl. lia.
  - rewrite (sum_permutation _ _
               (fmap_Permutation _ _ _ (map_to_list_insert m k v Hk))).
    rewrite fmap_cons. simpl. lia.
Qed.

Lemma wrap64_sum_step a u d :
  wrap64 (a - u + wrap64 (u + d)) = wrap64 (wrap64 a + d).
Proof. rewrite wrap64_add_r, wrap64_add_l. f_equal. lia. Qed.

Lemma record_event_sums now event s :
  totals_are_sums s → totals_are_sums (record_event now event s).
Proof.
  intros (HT & HS & HF & HK). unfold totals_are_sums. simpl.
  rewrite !provider_sum_insert. simpl.
  assert (E : ∀ f, f (new_provider_stats (Provider event) now) = 0 →
                default 0 (f <$> ProviderStatsMap s !! Provider event)
                = f (provider_entry now event s)).
  { intros f Hf. unfold provider_entry.
    by destruct (ProviderStatsMap s !! Provider event). }
  rewrite (E TotalUses), (E SuccessfulUses), (E FailedUses), (E PTotalTokensUsed)
    by reflexivity.
  rewrite HT, HS, HF, HK. unfold int_incr, int_add.
  split_and!.
  - by rewrite wrap64_sum_step.
  - destruct (Success event); simpl; [by rewrite wrap64_sum_step|].
    f_equal. lia.
  - destruct (Success event); simpl; [f_equal; lia|by rewrite wrap64_sum_step].
  - by rewrite wrap64_sum_step.
Qed.

(** X6. The global counters are the sums of the provider counters: in the fresh
    ledger, after every call of [RecordGeneration] on a ledger where they
    are, and so after every run from the fresh ledger, [TotalGenerations],
    [SuccessfulGenerations], [FailedGenerations] and [TotalTokensUsed] are
    the sums over the provider entries of [TotalUses], [SuccessfulUses],
    [FailedUses] and [TotalTokensUsed]. *)
Theorem global_counters_are_provider_sums :
  (∀ w event sm,
     totals_are_sums (stats sm) →
     totals_are_sums (stats (RecordGeneration w event sm).1))
  ∧ (∀ calls path,
       totals_are_sums (stats (record_all calls (fresh_manager path)))).
Proof.
  split.
  - intros w event sm. apply record_event_sums.
  - intros calls path. induction calls as [|c calls IH] using rev_ind.
    + by vm_compute.
    + rewrite record_all_snoc. by apply record_event_sums.
Qed.

(** ** What a run leaves for each provider *)

Lemma events_of_snoc p calls c :
  events_of p (calls ++ [c])
  = events_of p calls ++ (if decide (Provider c.2 = p) then [c.2] else []).
Proof.
  unfold events_of. by rewrite fmap_app, filter_app.
Qed.

Lemma count_if_snoc f events e :
  count_if f (events ++ [e]) = count_if f events + (if f e then 1 else 0).
Proof.
  unfold count_if. rewrite filter_app, length_app, filter_cons, filter_nil.
  destruct (f e); case_decide; simpl; try done; try lia.
Qed.

Lemma tokens_of_snoc events e :
  tokens_of (events ++ [e]) = tokens_of events + TokensUsed e.
Proof.
  unfold tokens_of. rewrite fmap_app, foldr_app. simpl.
  generalize (TokensUsed <$> events). intros l.
  induction l as [|x l IH]; simpl; lia.
Qed.

Lemma count_if_bounds f events :
  0 <= count_if f events <= Z.of_nat (length events).
Proof. unfold count_if. pose proof (length_filter (fun e => f e = true) events). lia. Qed.

Lemma count_if_split f events :
  count_if f events + count_if (fun e => negb (f e)) events
  = Z.of_nat (length events).
Proof.
  induction events as [|e events IH] using rev_ind; [done|].
  rewrite !count_if_snoc, length_app. simpl. destruct (f e); simpl; lia.
Qed.

Lemma record_provider_matches now e p events ps :
  Provider e = p →
  entry_matches p events ps →
  entry_matches p (events ++ [e]) (record_provider now e ps).
Proof.
  intros Hp (HN & HT & HS & HF & HK). unfold entry_matches. simpl.
  rewrite !count_if_snoc, tokens_of_snoc, length_app, HT, HS, HF, HK. simpl.
  unfold int_incr, int_add. rewrite !wrap64_add_l.
  split_and!.
  - done.
  - f_equal. lia.
  - destruct (Success e); simpl; [done|]. f_equal. lia.
  - destruct (Success e); simpl; [f_equal; lia|done].
  - done.
Qed.

Lemma run_entries calls path p :
  match ProviderStatsMap (stats (record_all calls (fresh_manager path))) !! p with
  | Some ps => entry_matches p (events_of p calls) ps ∧ events_of p calls ≠ []
  | None => events_of p calls = []
  end.
Proof.
  induction calls as [|c calls IH] using rev_ind.
  - simpl. by rewrite lookup_empty.
  - rewrite record_all_snoc, events_of_snoc. simpl.
    set (s := stats (record_all calls (fresh_manager path))) in *.
    rewrite lookup_insert. case_decide as Hk.
    + split; [|by destruct (events_of p calls)].
      apply record_provider_matches; [done|]. unfold provider_entry. rewrite Hk.
      destruct (ProviderStatsMap s !! p) as [ps|]; [by destruct IH|].
      rewrite IH. rewrite <- Hk. by vm_compute.
    + by rewrite app_nil_r.
Qed.

(** X7. After a run from the fresh ledger the keys of the provider map are the
    providers the events of the run name, and the entry under a key carries
    that key as its [Name]. *)
Theorem provider_keys_of_run (calls : list (Env * GenerationEvent))
    (path : string) :
  let m := ProviderStatsMap (stats (record_all calls (fresh_manager path))) in
  (∀ p, is_Some (m !! p) ↔ p ∈ Provider <$> calls.*2)
  ∧ (∀ p ps, m !! p = Some ps → Name ps = p).
Proof.
  intros m. split.
  - intros p. pose proof (run_entries calls path p) as H. fold m in H.
    assert (Hev : events_of p calls ≠ [] ↔ p ∈ Provider <$> calls.*2).
    { unfold events_of. rewrite list_elem_of_fmap. split.
      - intros Hne. destruct (filter _ _) as [|e l] eqn:E; [done|].
        assert (He : e ∈ filter (fun e => Provider e = p) calls.*2)
          by (rewrite E; left).
        apply list_elem_of_filter in He as [Hpe He]. by exists e.
      - intros (e & -> & He) Hnil.
        assert (Hin : e ∈ filter (fun e' => Provider e' = Provider e) calls.*2)
          by (by apply list_elem_of_filter).
        rewrite Hnil in Hin. by apply not_elem_of_nil in Hin. }
    rewrite <- Hev. destruct (m !! p) as [ps|].
    + split; [by destruct H|by eexists].
    + split; [by intros [? ?]|done].
  - intros p ps Hp. pose proof (run_entries calls path p) as H. fold m in H.
    rewrite Hp in H. by destruct H as [[? _] _].
Qed.

(** X8. Conservation per provider: after a run of fewer than [2^63] calls from
    the fresh ledger, the entry of a provider holds the number of events
    that name it, the number of those that succeeded and the number that
    failed, and its token counter is the sum of their tokens in Go's
    arithmetic. *)
Theorem provider_conservation (calls : list (Env * GenerationEvent))
    (path : string) (p : LLMProvider) (ps : ProviderStats) :
  Z.of_nat (length calls) < 2 ^ 63 →
  ProviderStatsMap (stats (record_all calls (fresh_manager path))) !! p = Some ps →
  let events := events_of p calls in
  TotalUses ps = Z.of_nat (length events)
  ∧ SuccessfulUses ps = count_if Success events
  ∧ FailedUses ps = Z.of_nat (length events) - count_if Success events
  ∧ PTotalTokensUsed ps = wrap64 (tokens_of events)
  ∧ 0 < TotalUses ps.
Proof.
  intros Hlen Hp events. pose proof (run_entries calls path p) as H.
  rewrite Hp in H. destruct H as [(_ & HT & HS & HF & HK) Hne]. fold events in HT, HS, HF, HK, Hne.
  assert (Hle : (length events ≤ length calls)%nat).
  { unfold events, events_of. etrans; [apply length_filter|]. by rewrite length_fmap. }
  pose proof (count_if_bounds Success events).
  pose proof (count_if_bounds (fun e => negb (Success e)) events).
  pose proof (count_if_split Success events).
  rewrite wrap64_id in HT, HS, HF by (unfold_int; lia).
  split_and!; [done|done|lia|done|].
  rewrite HT. destruct events; [done|simpl; lia].
Qed.

(** ** Cache counters and rates of a run *)

Lemma run_cache_counts calls path :
  let s := stats (record_all calls (fresh_manager path)) in
  CacheHits s
    = wrap64 (count_if (fun e => CacheChecked e && CacheHit e) calls.*2)
  ∧ CacheMisses s
    = wrap64 (count_if (fun e => CacheChecked e && negb (CacheHit e)) calls.*2).
Proof.
  induction calls as [|c calls IH] using rev_ind; simpl.
  - by vm_compute.
  - rewrite record_all_snoc, fmap_app. change ([c].*2) with [c.2].
    rewrite !count_if_snoc. simpl in *.
    destruct IH as [HH HM]. rewrite HH, HM.
    unfold int_incr, int_add. rewrite !wrap64_add_l.
    destruct (CacheChecked c.2), (CacheHit c.2); simpl; split; f_equal; lia.
Qed.

Lemma count_checked_split events :
  count_if (fun e => CacheChecked e && CacheHit e) events
  + count_if (fun e => CacheChecked e && negb (CacheHit e)) events
  = count_if CacheChecked events.
Proof.
  induction events as [|e events IH] using rev_ind; [done|].
  rewrite !count_if_snoc. destruct (CacheChecked e), (CacheHit e); simpl; lia.
Qed.

(** X9. Cache conservation: after a run of fewer than [2^63] calls from the
    fresh ledger, [CacheHits] and [CacheMisses] count the events that checked
    the cache and hit, and that checked it and missed; together they count
    the events that checked the cache, never more than [TotalGenerations]. *)
Theorem cache_conservation (calls : list (Env * GenerationEvent))
    (path : string) :
  Z.of_nat (length calls) < 2 ^ 63 →
  let s := stats (record_all calls (fresh_manager path)) in
  CacheHits s = count_if (fun e => CacheChecked e && CacheHit e) calls.*2
  ∧ CacheMisses s
    = count_if (fun e => CacheChecked e && negb (CacheHit e)) calls.*2
  ∧ CacheHits s + CacheMisses s = count_if CacheChecked calls.*2
  ∧ 0 <= CacheHits s ∧ 0 <= CacheMisses s
  ∧ CacheHits s + CacheMisses s <= TotalGenerations s.
Proof.
  intros Hlen. simpl.
  destruct (run_cache_counts calls path) as [HH HM].
  destruct (record_all_counts calls path) as (HT & _ & _).
  pose proof (count_checked_split calls.*2).
  pose proof (count_if_bounds (fun e => CacheChecked e && CacheHit e) calls.*2).
  pose proof (count_if_bounds (fun e => CacheChecked e && negb (CacheHit e)) calls.*2).
  pose proof (count_if_bounds CacheChecked calls.*2).
  rewrite length_fmap in *.
  simpl in *. rewrite HH, HM, HT.
  rewrite !wrap64_id by (unfold_int; lia). lia.
Qed.

(** X10. The rates of a ledger reached from the fresh one are numbers: neither
    [GetSuccessRate] nor [GetCacheHitRate] is a NaN after any run, and after
    a run of fewer than [2^63] calls they are the percentage of successful
    events among all, and of cache hits among the events that checked the
    cache. *)
Theorem rates_of_run (calls : list (Env * GenerationEvent)) (path : string) :
  let sm := record_all calls (fresh_manager path) in
  is_nan (GetSuccessRate sm) = false
  ∧ is_nan (GetCacheHitRate sm) = false
  ∧ (Z.of_nat (length calls) < 2 ^ 63 →
     GetSuccessRate sm
       = percentage (Z.of_nat (successes calls)) (Z.of_nat (length calls))
     ∧ GetCacheHitRate sm
       = percentage
           (count_if (fun e => CacheChecked e && CacheHit e) calls.*2)
           (count_if CacheChecked calls.*2)).
Proof.
  intros sm.
  destruct (run_cache_counts calls path) as [HH HM].
  destruct (record_all_counts calls path) as (HT & HS & _).
  fold sm in HH, HM, HT, HS. simpl in HH, HM, HT, HS.
  unfold GetSuccessRate, GetCacheHitRate. split_and!.
  - destruct (Z.eqb_spec (TotalGenerations (stats sm)) 0); [reflexivity|].
    apply Binary64.ratio_not_nan; [| |done].
    + rewrite HS. apply wrap64_ok.
    + rewrite HT. apply wrap64_ok.
  - destruct (Z.eqb_spec (int_add (CacheHits (stats sm)) (CacheMisses (stats sm))) 0);
      [reflexivity|].
    apply Binary64.ratio_not_nan; [|apply wrap64_ok|done].
    rewrite HH. apply wrap64_ok.
  - intros Hlen.
    pose proof (successes_le calls).
    pose proof (count_checked_split calls.*2).
    pose proof (count_if_bounds (fun e => CacheChecked e && CacheHit e) calls.*2).
    pose proof (count_if_bounds (fun e => CacheChecked e && negb (CacheHit e)) calls.*2).
    pose proof (count_if_bounds CacheChecked calls.*2).
    rewrite length_fmap in *.
    rewrite HT, HS, HH, HM. unfold int_add.
    rewrite (wrap64_id (Z.of_nat (length calls))) by (unfold_int; lia).
    rewrite (wrap64_id (Z.of_nat (successes calls))) by (unfold_int; lia).
    rewrite (wrap64_id (count_if (fun e => CacheChecked e && CacheHit e) calls.*2))
      by (unfold_int; lia).
    rewrite (wrap64_id (count_if (fun e => CacheChecked e && negb (CacheHit e)) calls.*2))
      by (unfold_int; lia).
    rewrite (count_checked_split calls.*2).
    rewrite wrap64_id by (unfold_int; lia).
    done.
Qed.

(** ** Success rates of the providers *)

Lemma record_provider_rate now event ps :
  int_ok (SuccessfulUses ps) → is_nan (SuccessRate ps) = false →
  success_rate_ok (record_provider now event ps).
Proof.
  intros HS Hnan. unfold success_rate_ok. simpl.
  assert (HS' : int_ok (if Success event then int_incr (SuccessfulUses ps)
                        else SuccessfulUses ps)).
  { destruct (Success event); [apply wrap64_ok|done]. }
  split_and!.
  - apply wrap64_ok.
  - done.
  - destruct (Z.ltb_spec 0 (int_incr (TotalUses ps))); [|done].
    apply Binary64.ratio_not_nan; [done|apply wrap64_ok|lia].
  - intros Hpos. unfold percentage.
    destruct (Z.ltb_spec 0 (int_incr (TotalUses ps))); [|lia].
    destruct (Z.eqb_spec (int_incr (TotalUses ps)) 0); [lia|done].
Qed.

Lemma record_event_rates now event s :
  (∀ p ps, ProviderStatsMap s !! p = Some ps → success_rate_ok ps) →
  ∀ p ps, ProviderStatsMap (record_event now event s) !! p = Some ps →
    success_rate_ok ps.
Proof.
  intros Hs p ps. simpl. rewrite lookup_insert. case_decide as Hk.
  - intros [= <-]. unfold provider_entry.
    destruct (ProviderStatsMap s !! Provider event) as [old|] eqn:E.
    + destruct (Hs _ _ E) as (_ & HS & Hnan & _). by apply record_provider_rate.
    + apply record_provider_rate; [by vm_compute|reflexivity].
  - apply Hs.
Qed.

(** X11. In every ledger reached from the fresh one, the [SuccessRate] of every
    provider entry is a number, and it is the percentage of the entry's
    successful uses among its uses; the rate is kept up to date by every call
    of [RecordGeneration] that names the provider. *)
Theorem provider_success_rate (calls : list (Env * GenerationEvent))
    (path : string) (p : LLMProvider) (ps : ProviderStats) :
  ProviderStatsMap (stats (record_all calls (fresh_manager path))) !! p = Some ps →
  is_nan (SuccessRate ps) = false
  ∧ (0 < TotalUses ps →
     SuccessRate ps = percentage (SuccessfulUses ps) (TotalUses ps))
  ∧ (Z.of_nat (length calls) < 2 ^ 63 →
     SuccessRate ps
     = percentage (count_if Success (events_of p calls))
         (Z.of_nat (length (events_of p calls)))).
Proof.
  intros Hp.
  assert (Hall : ∀ q qs,
    ProviderStatsMap (stats (record_all calls (fresh_manager path))) !! q = Some qs →
    success_rate_ok qs).
  { clear p ps Hp. induction calls as [|c calls IH] using rev_ind.
    - intros q qs. simpl. by rewrite lookup_empty.
    - rewrite record_all_snoc. by apply record_event_rates. }
  destruct (Hall p ps Hp) as (_ & _ & Hnan & Hrate). split_and!; [done|done|].
  intros Hlen. pose proof (run_entries calls path p) as H.
  rewrite Hp in H. destruct H as [(_ & HT & HS & _) Hne].
  assert (Hle : (length (events_of p calls) ≤ length calls)%nat).
  { unfold events_of. etrans; [apply length_filter|]. by rewrite length_fmap. }
  pose proof (count_if_bounds Success (events_of p calls)).
  rewrite wrap64_id in HT, HS by (unfold_int; lia).
  rewrite <- HT, <- HS. apply Hrate.
  rewrite HT. destruct (events_of p calls); [done|simpl; lia].
Qed.

(** ** Snapshots and reset *)

(** X12. [GetStats] returns the ledger, field by field and entry by entry, and
    the snapshot taken after a call of [RecordGeneration] is the snapshot
    taken before it with the event recorded. *)
Theorem snapshot_is_ledger (sm : StatsManager) :
  GetStats sm = stats sm
  ∧ (∀ p, ProviderStatsMap (GetStats sm) !! p = ProviderStatsMap (stats sm) !! p)
  ∧ (∀ w event,
       GetStats (RecordGeneration w event sm).1
       = record_event (time_Now w) event (GetStats sm)).
Proof.
  split_and!.
  - apply GetStats_stats.
  - intros p. by rewrite GetStats_stats.
  - intros w event. by rewrite !GetStats_stats.
Qed.

Section ResetProperties.
Variable range :
  gmap LLMProvider ProviderStats → list (LLMProvider * ProviderStats).
Hypothesis range_visits_each_once : ∀ m, range m ≡ₚ map_to_list m.

Lemma range_empty : range ∅ = [].
Proof.
  pose proof (range_visits_each_once ∅) as H.
  rewrite map_to_list_empty in H. by apply Permutation_nil_r in H.
Qed.

(** X13. [ResetStats] empties the ledger in memory whether or not the empty
    ledger can be persisted, and keeps the path: the error it returns is the
    one of the persist step, every read then reports an empty ledger, and a
    run recorded after it ends as the same run on a fresh manager. *)
Theorem reset_empties_ledger (w : Env) (sm : StatsManager) :
  let sm' := (ResetStats w sm).1 in
  sm' = fresh_manager (filePath sm)
  ∧ (ResetStats w sm).2 = save w (fresh_manager (filePath sm))
  ∧ GetStats sm' = zero_stats
  ∧ GetSuccessRate sm' = 0%float
  ∧ GetCacheHitRate sm' = 0%float
  ∧ GetProviderRanking range sm' = []
  ∧ GetMostUsedProvider range sm' = ("", 0)
  ∧ (∀ calls, record_all calls sm' = record_all calls (fresh_manager (filePath sm)))
  ∧ (∀ calls, Z.of_nat (length calls) < 2 ^ 63 →
       TotalGenerations (stats (record_all calls sm')) = Z.of_nat (length calls)).
Proof.
  cbv zeta.
  change (ResetStats w sm).1 with (fresh_manager (filePath sm)).
  split_and!.
  - reflexivity.
  - reflexivity.
  - by rewrite GetStats_stats.
  - reflexivity.
  - reflexivity.
  - unfold GetProviderRanking, collect_rankings. simpl. by rewrite range_empty.
  - unfold GetMostUsedProvider. simpl. by rewrite range_empty.
  - reflexivity.
  - intros calls Hlen.
    destruct (record_all_counts calls (filePath sm)) as (HT & _ & _).
    cbv zeta in HT. rewrite HT.
    apply wrap64_id. unfold_int. lia.
Qed.
End ResetProperties.

(** ** Outcomes of persisting and loading *)

(** X14. [RecordGeneration] returns no error exactly when the directory of the
    stats file can be created, the updated ledger can be encoded and the
    encoding can be written to the path of the manager; a failure to create
    the directory or to encode is returned wrapped, whatever the later steps
    would do, and a failure to write is returned as it is. *)
Theorem record_generation_error (w : Env) (event : GenerationEvent)
    (sm : StatsManager) :
  let r := RecordGeneration w event sm in
  let dir := filepath_Dir w (filePath sm) in
  filePath r.1 = filePath sm
  ∧ (r.2 = None ↔
     os_MkdirAll w dir = None
     ∧ ∃ data, json_MarshalIndent w (stats r.1) = inr data
               ∧ os_WriteFile w (filePath sm) data = None)
  ∧ (∀ err, os_MkdirAll w dir = Some err →
       r.2 = Some (Errorf "failed to create stats directory" err))
  ∧ (∀ msg, os_MkdirAll w dir = None →
       json_MarshalIndent w (stats r.1) = inl msg →
       r.2 = Some (Errorf "failed to marshal stats" (ErrJSON msg)))
  ∧ (∀ data, os_MkdirAll w dir = None →
       json_MarshalIndent w (stats r.1) = inr data →
       r.2 = os_WriteFile w (filePath sm) data).
Proof.
  simpl. unfold save. simpl.
  destruct (os_MkdirAll w (filepath_Dir w (filePath sm))) as [e|];
    [|destruct (json_MarshalIndent w _) as [msg|data]].
  - split_and!; [done| |by intros ? [= <-]|done|done].
    split; [done|]. by intros [? _].
  - split_and!; [done| |done|by intros ? _ [= <-]|done].
    split; [done|]. by intros [_ (? & ? & _)].
  - split_and!; [done| |done|done|by intros ? _ [= <-]].
    split; [by eauto|]. by intros [_ (? & [= <-] & ?)].
Qed.

(** X15. [NewStatsManager] fails in three cases and no other: the configuration
    path cannot be found, the stats file cannot be read for another reason
    than its absence, or the file is not empty and does not parse.  When it
    succeeds the manager points to [usage_stats.json] beside the
    configuration file, and its ledger is the zero-valued one or the one
    decoded from the non-empty file. *)
Theorem new_stats_manager_outcome (w : Env) :
  let statsPath cfg := filepath_Join w (filepath_Dir w cfg) "usage_stats.json" in
  ((∃ e, NewStatsManager w = inl e) ↔
     (∃ err, StoreUtils_GetConfigPath w = inl err)
     ∨ (∃ cfg err, StoreUtils_GetConfigPath w = inr cfg
          ∧ os_ReadFile w (statsPath cfg) = inl err ∧ IsNotExist err = false)
     ∨ (∃ cfg data msg, StoreUtils_GetConfigPath w = inr cfg
          ∧ os_ReadFile w (statsPath cfg) = inr data ∧ data ≠ []
          ∧ (json_Unmarshal w data zero_stats).2 = Some msg))
  ∧ (∀ sm, NewStatsManager w = inr sm →
       ∃ cfg, StoreUtils_GetConfigPath w = inr cfg
         ∧ filePath sm = statsPath cfg
         ∧ (stats sm = zero_stats
            ∨ ∃ data, os_ReadFile w (statsPath cfg) = inr data ∧ data ≠ []
                ∧ json_Unmarshal w data zero_stats = (stats sm, None))).
Proof.
  intros statsPath. unfold NewStatsManager, load. simpl.
  destruct (StoreUtils_GetConfigPath w) as [e|cfg] eqn:Hcfg.
  { split; [|done]. split; [intros _; left; by eexists|by eexists]. }
  fold (statsPath cfg).
  destruct (os_ReadFile w (statsPath cfg)) as [err|data] eqn:Hread.
  { destruct (IsNotExist err) eqn:Hne; simpl.
    - split.
      + split; [by intros [? ?]|].
        intros [[? [=]]|[(c & e & [= <-] & He & Hf)|(c & d & m & [= <-] & Hd & _)]];
          congruence.
      + intros sm [= <-]. exists cfg. split_and!; [done|done|by left].
    - split; [|done]. split; [|by eexists].
      intros _. right. left. by exists cfg, err. }
  destruct data as [|b data]; simpl.
  { split.
    - split; [by intros [? ?]|].
      intros [[? [=]]|[(c & e & [= <-] & He & _)|(c & d & m & [= <-] & Hd & Hn & _)]];
        congruence.
    - intros sm [= <-]. exists cfg. split_and!; [done|done|by left]. }
  destruct (json_Unmarshal w (b :: data) zero_stats) as [s [msg|]] eqn:Hu; simpl.
  - split; [|done]. split; [|by eexists].
    intros _. right. right. exists cfg, (b :: data), msg.
    split_and!; [done|done|done|by rewrite Hu].
  - split.
    + split; [by intros [? ?]|].
      intros [[? [=]]|[(c & e & [= <-] & He & _)|(c & d & m & [= <-] & Hd & Hn & Hm)]];
        [congruence|].
      rewrite Hread in Hd. injection Hd as <-. by rewrite Hu in Hm.
    + intros sm [= <-]. exists cfg. split_and!; [done|done|].
      right. by exists (b :: data).
Qed.

(** ** Provider names *)

Lemma is_valid_supported p :
  LLMProviders.IsValid p = true ↔ p ∈ LLMProviders.GetSupportedProviders.
Proof.
  unfold LLMProviders.IsValid, LLMProviders.GetSupportedProviders.
  rewrite !elem_of_cons, elem_of_nil.
  repeat case_decide; intuition congruence.
Qed.

(** X16. [IsValid] accepts exactly the providers [GetSupportedProviders] lists,
    and that list names six providers, none of them twice. *)
Theorem is_valid_iff_supported :
  (∀ p, LLMProviders.IsValid p = true ↔ p ∈ LLMProviders.GetSupportedProviders)
  ∧ NoDup LLMProviders.GetSupportedProviders
  ∧ length LLMProviders.GetSupportedProviders = 6%nat.
Proof.
  split_and!.
  - apply is_valid_supported.
  - apply (bool_decide_unpack _). by vm_compute.
  - reflexivity.
Qed.

(** X17. [ParseLLMProvider] returns its argument unchanged, and its flag is set
    exactly for the strings of [GetSupportedProviderStrings]; parsing the
    [String] of a supported provider gives the provider back, and a string
    parsed with the flag set is the [String] of the provider returned. *)
Theorem parse_provider_round_trip :
  (∀ s, (LLMProviders.ParseLLMProvider s).1 = s)
  ∧ (∀ s, (LLMProviders.ParseLLMProvider s).2 = true
          ↔ s ∈ LLMProviders.GetSupportedProviderStrings)
  ∧ (∀ p, p ∈ LLMProviders.GetSupportedProviders →
          LLMProviders.ParseLLMProvider (LLMProviders.String p) = (p, true))
  ∧ (∀ s p, LLMProviders.ParseLLMProvider s = (p, true) →
          LLMProviders.String p = s ∧ p ∈ LLMProviders.GetSupportedProviders)
  ∧ length LLMProviders.GetSupportedProviderStrings
    = length LLMProviders.GetSupportedProviders.
Proof.
  split_and!.
  - done.
  - intros s. unfold LLMProviders.ParseLLMProvider. simpl.
    rewrite is_valid_supported.
    unfold LLMProviders.GetSupportedProviderStrings.
    rewrite list_elem_of_fmap. unfold LLMProviders.String. split.
    + intros Hs. by exists s.
    + by intros (p & -> & Hp).
  - intros p Hp. unfold LLMProviders.ParseLLMProvider, LLMProviders.String.
    simpl. f_equal. by apply is_valid_supported.
  - intros s p [= <- Hs]. split; [done|]. by apply is_valid_supported.
  - unfold LLMProviders.GetSupportedProviderStrings. by rewrite length_fmap.
Qed.

(** ** Grok answers *)

(** X18. The text taken from a Grok answer is the message of the answer when that
    is not empty, otherwise the message of the first choice when there is
    one; it is empty exactly when the message of the answer is empty and
    there is no choice or the first choice is empty too. *)
Theorem grok_response_content (r : Grok.GrokResponse) :
  let own := Grok.Content (Grok.ResponseMessage r) in
  (own ≠ "" → Grok.response_content r = own)
  ∧ (∀ c cs, own = "" → Grok.Choices r = c :: cs →
       Grok.response_content r = Grok.Content (Grok.ChoiceMessage c))
  ∧ (own = "" → Grok.Choices r = [] → Grok.response_content r = "")
  ∧ (Grok.response_content r = "" ↔
       own = ""
       ∧ ∀ c, head (Grok.Choices r) = Some c →
              Grok.Content (Grok.ChoiceMessage c) = "").
Proof.
  simpl. unfold Grok.response_content.
  destruct (decide (Grok.Content (Grok.ResponseMessage r) = "")) as [E|E].
  - split_and!.
    + done.
    + by intros c cs _ ->.
    + by intros _ ->.
    + destruct (Grok.Choices r) as [|c cs]; simpl.
      * split; [done|by intros [? _]].
      * split; [intros Hc; split; [done|by intros ? [= <-]]|].
        intros [_ Hc]. by apply Hc.
  - split_and!; [done|done|done|]. split; [done|by intros [? _]].
Qed.

(** X19. [grok.GenerateCommitMessage] returns an empty message with every error;
    a status other than 200 is an error whatever the body holds; and it
    returns no error exactly when the request is encoded, built and answered
    with status 200 and a body that decodes, the message then being the text
    taken from the decoded answer. *)
Theorem grok_generate_outcome (n : Grok.Net) :
  let r := Grok.GenerateCommitMessage n in
  (r.2 ≠ None → r.1 = "")
  ∧ (∀ status body, Grok.json_Marshal_request n = None →
       Grok.http_NewRequest n = None →
       Grok.client_Do n = inr (status, body) → status ≠ 200 →
       r = ("", Some (Grok.BadStatus status (Grok.body_text n body))))
  ∧ (r.2 = None ↔
       Grok.json_Marshal_request n = None ∧ Grok.http_NewRequest n = None
       ∧ ∃ body answer, Grok.client_Do n = inr (200, body)
           ∧ Grok.decode_body n body = inr answer
           ∧ r.1 = Grok.response_content answer).
Proof.
  simpl. unfold Grok.GenerateCommitMessage.
  destruct (Grok.json_Marshal_request n) as [e1|].
  { split_and!; [done|done|]. split; [done|by intros [? _]]. }
  destruct (Grok.http_NewRequest n) as [e2|].
  { split_and!; [done|done|]. split; [done|by intros (_ & ? & _)]. }
  destruct (Grok.client_Do n) as [e3|[status body]].
  { split_and!; [done|done|]. split; [done|by intros (_ & _ & ? & ? & ? & _)]. }
  destruct (Z.eqb_spec status 200) as [->|Hs]; simpl.
  - destruct (Grok.decode_body n body) as [e4|answer] eqn:Hd.
    + split_and!; [done|by intros ? ? _ _ [= <- <-]|].
      split; [done|]. intros (_ & _ & b & a & [= <-] & Ha & _). congruence.
    + split_and!; [done|by intros ? ? _ _ [= <- <-]|].
      split; [|done]. intros _. split_and!; [done|done|]. by exists body, answer.
  - split_and!; [done|by intros ? ? _ _ [= <- <-]|].
    split; [done|]. by intros (_ & _ & ? & ? & [= ? ?] & _).
Qed.

(** ** Instances on the sample run *)

Lemma reverse_range_visits_each_once m : reverse_range m ≡ₚ map_to_list m.
Proof. apply reverse_Permutation. Defined.

Lemma sample_gemini_lookup :
  ProviderStatsMap (stats sample_manager) !! "Gemini" = Some sample_gemini_entry.
Proof. by vm_compute. Defined.

Lemma most_used_is_maximum_witness :
  let m := ProviderStatsMap (stats sample_manager) in
  let r := GetMostUsedProvider reverse_range sample_manager in
  0 <= r.2
  ∧ (∀ k s, m !! k = Some s → TotalUses s <= r.2)
  ∧ (0 < r.2 → ∃ s, m !! r.1 = Some s ∧ TotalUses s = r.2)
  ∧ (r.2 = 0 → r.1 = "")
  ∧ (m = ∅ → r = ("", 0)).
Proof.
  exact (most_used_is_maximum reverse_range reverse_range_visits_each_once
           sample_manager).
Defined.

Lemma most_used_first_visited_witness :
  let visited := map_to_list (ProviderStatsMap (stats sample_manager)) in
  let r := GetMostUsedProvider map_to_list sample_manager in
  ∃ i s, visited !! i = Some (r.1, s) ∧ TotalUses s = r.2
         ∧ ∀ j e, (j < i)%nat → visited !! j = Some e → TotalUses e.2 < r.2.
Proof.
  apply (most_used_first_visited map_to_list sample_manager). by vm_compute.
Defined.

Lemma most_used_count_order_independent_witness :
  (GetMostUsedProvider map_to_list sample_manager).2
  = (GetMostUsedProvider reverse_range sample_manager).2.
Proof.
  apply (most_used_count_order_independent map_to_list reverse_range
           sample_manager (fun m => reflexivity _)
           reverse_range_visits_each_once).
Defined.

Lemma ranking_head_is_most_used_witness :
  (GetMostUsedProvider reverse_range sample_manager).2
  = Z.max 0 (TotalUses sample_gemini_entry).
Proof.
  apply (ranking_head_is_most_used map_to_list reverse_range
           (fun m => reflexivity _) reverse_range_visits_each_once
           sample_manager "Gemini" sample_gemini_entry).
  - by vm_compute.
  - exact sample_gemini_lookup.
Defined.

Lemma provider_conservation_witness :
  let events := events_of "Gemini" sample_calls in
  TotalUses sample_gemini_entry = Z.of_nat (length events)
  ∧ SuccessfulUses sample_gemini_entry = count_if Success events
  ∧ FailedUses sample_gemini_entry
    = Z.of_nat (length events) - count_if Success events
  ∧ PTotalTokensUsed sample_gemini_entry = wrap64 (tokens_of events)
  ∧ 0 < TotalUses sample_gemini_entry.
Proof.
  apply (provider_conservation sample_calls "usage_stats.json" "Gemini"
           sample_gemini_entry).
  - by vm_compute.
  - exact sample_gemini_lookup.
Defined.

Lemma cache_conservation_witness :
  let s := stats (record_all sample_calls (fresh_manager "usage_stats.json")) in
  CacheHits s = count_if (fun e => CacheChecked e && CacheHit e) sample_calls.*2
  ∧ CacheMisses s
    = count_if (fun e => CacheChecked e && negb (CacheHit e)) sample_calls.*2
  ∧ CacheHits s + CacheMisses s = count_if CacheChecked sample_calls.*2
  ∧ 0 <= CacheHits s ∧ 0 <= CacheMisses s
  ∧ CacheHits s + CacheMisses s <= TotalGenerations s.
Proof.
  apply (cache_conservation sample_calls "usage_stats.json"). by vm_compute.
Defined.

Lemma provider_success_rate_witness :
  is_nan (SuccessRate sample_gemini_entry) = false
  ∧ (0 < TotalUses sample_gemini_entry →
     SuccessRate sample_gemini_entry
     = percentage (SuccessfulUses sample_gemini_entry)
         (TotalUses sample_gemini_entry))
  ∧ (Z.of_nat (length sample_calls) < 2 ^ 63 →
     SuccessRate sample_gemini_entry
     = percentage (count_if Success (events_of "Gemini" sample_calls))
         (Z.of_nat (length (events_of "Gemini" sample_calls)))).
Proof.
  apply (provider_success_rate sample_calls "usage_stats.json" "Gemini"
           sample_gemini_entry).
  exact sample_gemini_lookup.
Defined.

Lemma reset_empties_ledger_witness :
  let w := sample_env "2025-01-02T09:00:00Z" (Some (ErrOS "no space left on device")) in
  let sm' := (ResetStats w sample_manager).1 in
  sm' = fresh_manager (filePath sample_manager)
  ∧ (ResetStats w sample_manager).2
    = save w (fresh_manager (filePath sample_manager))
  ∧ GetStats sm' = zero_stats
  ∧ GetSuccessRate sm' = 0%float
  ∧ GetCacheHitRate sm' = 0%float
  ∧ GetProviderRanking map_to_list sm' = []
  ∧ GetMostUsedProvider map_to_list sm' = ("", 0)
  ∧ (∀ calls,
       record_all calls sm' = record_all calls (fresh_manager (filePath sample_manager)))
  ∧ (∀ calls, Z.of_nat (length calls) < 2 ^ 63 →
       TotalGenerations (stats (record_all calls sm')) = Z.of_nat (length calls)).
Proof.
  exact (reset_empties_ledger map_to_list (fun m => reflexivity _)
           (sample_env "2025-01-02T09:00:00Z"
              (Some (ErrOS "no space left on device")))
           sample_manager).
Defined.

(** ** Tokens *)

Lemma run_tokens calls path :
  TotalTokensUsed (stats (record_all calls (fresh_manager path)))
  = wrap64 (tokens_of calls.*2).
Proof.
  induction calls as [|c calls IH] using rev_ind.
  - by vm_compute.
  - rewrite record_all_snoc, fmap_app. change ([c].*2) with [c.2].
    rewrite tokens_of_snoc. simpl in *. rewrite IH.
    unfold int_add. by rewrite wrap64_add_l.
Qed.

Lemma tokens_of_nonneg events :
  Forall (fun e => 0 <= TokensUsed e) events → 0 <= tokens_of events.
Proof.
  intros H. induction H as [|e events He _ IH]; unfold tokens_of in *;
    rewrite ?fmap_cons; simpl; lia.
Qed.

(** X20. Token conservation: after a run from the fresh ledger [TotalTokensUsed]
    is the sum of the tokens of the events in Go's arithmetic, and the sum
    itself when no event reports a negative count and the sum is below
    [2^63]. *)
Theorem token_conservation (calls : list (Env * GenerationEvent))
    (path : string) :
  let s := stats (record_all calls (fresh_manager path)) in
  TotalTokensUsed s = wrap64 (tokens_of calls.*2)
  ∧ (Forall (fun e => 0 <= TokensUsed e) calls.*2 →
     tokens_of calls.*2 < 2 ^ 63 →
     TotalTokensUsed s = tokens_of calls.*2).
Proof.
  simpl. split; [apply run_tokens|].
  intros Hpos Hlt. rewrite run_tokens. apply wrap64_id.
  pose proof (tokens_of_nonneg _ Hpos). unfold_int. lia.
Qed.
